(** * t2i.py: prompt composition, request URLs, cached fetch, batch generation

    A shallow embedding of the non-UI logic of [src/t2i.py] (a Streamlit
    front-end for the Pollinations text-to-image endpoint) and the proofs
    of the properties its specification states about it.

    Conventions.
    - A Python [str] is a list of Unicode code points ([N]); a [bytes]
      object is a list of byte values ([N] below 256), which is what
      iterating over it yields.
    - Python [int] is [Z]; [%] by a positive modulus is [Z.modulo].
    - Everything the script reads from the outside (the UTC clock, the
      cache timer, the HTTP endpoint, the local time stamp) is an oracle
      of the record [Env]; what it changes (session state, cache, the
      requests sent, the widgets emitted) is threaded as [World].
    - Library calls ([str.strip], [urllib.parse.quote],
      [st.cache_data(ttl=...)]) are modelled by their documented
      behaviour, next to the functions of the script that use them. *)

From Stdlib Require Import ZArith NArith List String Ascii Lia DecimalString.
From Stdlib Require Import DecimalPos DecimalZ.
From stdpp Require Import gmap list.

Local Open Scope N_scope.

(* ===================================================================== *)
(** * Part I: definitions                                                 *)
(* ===================================================================== *)

(** ** Python values *)

Module Py.

(** [str]: a sequence of code points. *)
Abbreviation str := (list N).

(** [bytes]: a sequence of integers in [range(256)]. *)
Abbreviation bytes := (list N).

(** A literal of the source, given as a Rocq string of ASCII characters. *)
Definition lit (s : string) : str :=
  map N_of_ascii (list_ascii_of_string s).

(** The characters [str.strip()] removes when called without argument:
    [Py_UNICODE_ISSPACE], i.e. the ASCII controls 0x09-0x0D and
    0x1C-0x1F, the space, and the Unicode white space above 0x7F. *)
Definition isspace (c : N) : bool :=
  ((9 <=? c) && (c <=? 13)) || ((28 <=? c) && (c <=? 32))
  || (c =? 133) || (c =? 160) || (c =? 5760)
  || ((8192 <=? c) && (c <=? 8202))
  || (c =? 8232) || (c =? 8233) || (c =? 8239) || (c =? 8287)
  || (c =? 12288).

(** [s.lstrip()] *)
Fixpoint lstrip (s : str) : str :=
  match s with
  | [] => []
  | c :: t => if isspace c then lstrip t else s
  end.

(** [s.rstrip()] *)
Fixpoint rstrip (s : str) : str :=
  match s with
  | [] => []
  | c :: t =>
      match rstrip t with
      | [] => if isspace c then [] else [c]
      | r => c :: r
      end
  end.

(** [s.strip()] *)
Definition strip (s : str) : str := rstrip (lstrip s).

(** Truth value of a string: [bool(s)], false exactly for the empty string. *)
Definition truthy (s : str) : bool :=
  match s with [] => false | _ :: _ => true end.

(** Truth value of a list: false exactly for [[]]. *)
Definition truthy_list {A : Type} (l : list A) : bool :=
  match l with [] => false | _ :: _ => true end.

(** [s.startswith(p)] *)
Fixpoint startswith (p s : str) : bool :=
  match p, s with
  | [], _ => true
  | _ :: _, [] => false
  | a :: p', b :: s' => (a =? b) && startswith p' s'
  end.

(** [s.endswith(p)] *)
Definition endswith (p s : str) : bool := startswith (rev p) (rev s).

(** [str(n)] / [f"{n}"] for an [int]: decimal digits, [-] when negative. *)
Definition str_of_int (n : Z) : str :=
  lit (NilZero.string_of_int (Z.to_int n)).

(** [f"{x}"] for [x : int | None]. *)
Definition str_of_opt_int (x : option Z) : str :=
  match x with
  | Some n => str_of_int n
  | None => lit "None"
  end.

(** Exceptions the script can meet. *)
Inductive exn : Type :=
| UnicodeEncodeError
| RequestException (reason : str)
| HTTPError (status : Z).

(** The outcome of a call that may raise. *)
Inductive result (A : Type) : Type :=
| Ok (a : A)
| Raise (e : exn).

Arguments Ok {A} a.
Arguments Raise {A} e.

(** A code point [str.encode("utf-8")] accepts: at most U+10FFFF and not
    a surrogate. *)
Definition is_scalar (c : N) : bool :=
  (c <? 55296) || ((57343 <? c) && (c <=? 1114111)).

Definition valid_text (s : str) : bool := forallb is_scalar s.

(** UTF-8 of one code point; [None] is the strict error handler raising. *)
Definition utf8_encode_char (c : N) : option bytes :=
  if c <? 128 then Some [c]
  else if c <? 2048 then Some [192 + c / 64; 128 + c mod 64]
  else if c <? 65536 then
    if (55296 <=? c) && (c <=? 57343) then None
    else Some [224 + c / 4096; 128 + (c / 64) mod 64; 128 + c mod 64]
  else if c <? 1114112 then
    Some [240 + c / 262144; 128 + (c / 4096) mod 64;
          128 + (c / 64) mod 64; 128 + c mod 64]
  else None.

(** [s.encode("utf-8", "strict")] *)
Fixpoint utf8_encode (s : str) : option bytes :=
  match s with
  | [] => Some []
  | c :: t =>
      match utf8_encode_char c, utf8_encode t with
      | Some b, Some bs => Some (b ++ bs)
      | _, _ => None
      end
  end.

(** [s.lower()] on the ASCII letters; the styles of the script are
    ASCII words, other code points are left as they are. *)
Definition lower_char (c : N) : N :=
  if (65 <=? c) && (c <=? 90) then c + 32 else c.

Definition lower (s : str) : str := map lower_char s.

End Py.

Import Py.

(** ** [urllib.parse.quote] with its default [safe="/"] *)

Module Urllib.

Definition is_alnum (b : N) : bool :=
  ((65 <=? b) && (b <=? 90)) || ((97 <=? b) && (b <=? 122))
  || ((48 <=? b) && (b <=? 57)).

(** [_ALWAYS_SAFE]: letters, digits and [_.-~]. *)
Definition always_safe (b : N) : bool :=
  is_alnum b || (b =? 95) || (b =? 46) || (b =? 45) || (b =? 126).

(** The safe set of [quote(string)]: [_ALWAYS_SAFE] and the slash. *)
Definition safe (b : N) : bool := always_safe b || (b =? 47).

Definition hexdigit (n : N) : N := if n <? 10 then 48 + n else 55 + n.

(** ['%{:02X}'.format(b)] *)
Definition percent (b : N) : str := [37; hexdigit (b / 16); hexdigit (b mod 16)].

(** [_Quoter.__missing__]: [chr(b) if b in self.safe else '%{:02X}'.format(b)] *)
Definition quoter (b : N) : str := if safe b then [b] else percent b.

(** [quote(string)]: encode to UTF-8, then quote byte by byte. *)
Definition quote (s : str) : result str :=
  match utf8_encode s with
  | Some bs => Ok (flat_map quoter bs)
  | None => Raise UnicodeEncodeError
  end.

End Urllib.

(** ** PromptBuilder: [build_prompt] (t2i.py, lines 27-33) *)

Definition build_prompt (style prompt negative : str) : str :=
  let base := strip (style ++ lit " style, " ++ prompt) in
  if truthy (strip negative)
  then base ++ lit ". Negative prompt: " ++ strip negative
  else base.

(** ** RequestURLBuilder: [pollinations_url] (t2i.py, lines 35-41) *)

Definition pollinations_url (final_prompt : str) (width height : Z)
    (seed : option Z) : result str :=
  match Urllib.quote final_prompt with
  | Raise e => Raise e
  | Ok encoded =>
      let url := lit "https://image.pollinations.ai/prompt/" ++ encoded
                 ++ lit "?width=" ++ str_of_int width
                 ++ lit "&height=" ++ str_of_int height in
      match seed with
      | Some s => Ok (url ++ lit "&seed=" ++ str_of_int s)
      | None => Ok url
      end
  end.

(** The head of the composed prompt as the specification words it:
    the user prompt trimmed on its own, then the whole stripped. *)
Definition spec_prompt_head (style prompt : str) : str :=
  strip (style ++ lit " style, " ++ strip prompt).

(** ** The outside world and the state of a session *)

(** What [requests.get(url, timeout=30)] comes back with: an exception
    (connection error, timeout) or a response. *)
Inductive http_response : Type :=
| NoResponse (reason : str)
| Response (status_code : Z) (content : bytes).

(** The oracles of a run.
    - [utc_millis i]: [int(datetime.utcnow().timestamp() * 1000)] at its
      [i]-th evaluation of the run (the generation loop evaluates it once
      per variation);
    - [monotonic k]: the timer of the cache, in seconds, when the cached
      function is called for the [k]-th time;
    - [http_get k url]: what the endpoint answers to the [k]-th request;
    - [local_now k]: [datetime.now().strftime("%Y-%m-%d %H:%M:%S")] after
      the [k]-th call of the cached function. *)
Record Env : Type := {
  utc_millis : nat -> Z;
  monotonic : nat -> Z;
  http_get : nat -> str -> http_response;
  local_now : nat -> str
}.

(** The dictionaries kept in [history] and [favorites]. *)
Module Item.
Record t : Type := {
  url : str;
  prompt : str;
  style : str;
  w : Z;
  h : Z;
  seed : option Z;
  ts : str
}.
End Item.

(** [st.session_state] after [init_state()]. *)
Record Session : Type := {
  history : list Item.t;
  favorites : list Item.t
}.

(** [init_state()]: a key that is missing is bound to the empty list. *)
Definition init_state (history favorites : option (list Item.t)) : Session :=
  {| history := match history with Some l => l | None => [] end;
     favorites := match favorites with Some l => l | None => [] end |}.

(** The store of [st.cache_data] for [fetch_image_bytes] (URL to content
    and the time it was stored), the requests sent to the endpoint and the
    calls of [fetch_image_bytes], both oldest first. *)
Record Net : Type := {
  cache : gmap str (bytes * Z);
  requests : list str;
  fetch_log : list str
}.

(** The elements a handler puts on the page.  The results block (the
    pictures, their download buttons and the button for the archive that
    [to_zip] makes of them) is one element carrying the files; the bytes
    of the archive are those [zipfile] writes and are not modelled. *)
Inductive widget : Type :=
| st_warning (msg : str)
| st_error_fetch (idx : nat) (e : exn)
| st_success (msg : str)
| st_results (images : list (str * bytes)).

Record World : Type := {
  session : Session;
  net : Net;
  page : list widget
}.

Definition emit (x : widget) (wd : World) : World :=
  {| session := session wd; net := net wd; page := page wd ++ [x] |}.

(** ** ImageFetcher: [fetch_image_bytes] (t2i.py, lines 43-48) *)

(** [r.raise_for_status()] raises for the 4xx and 5xx codes. *)
Definition raise_for_status (status_code : Z) : bool :=
  ((400 <=? status_code) && (status_code <? 600))%Z.

(** The body of [fetch_image_bytes]: one request, no retry. *)
Definition fetch_body (env : Env) (url : str) (nt : Net)
  : result bytes * Net :=
  let nt' := {| cache := cache nt;
                requests := requests nt ++ [url];
                fetch_log := fetch_log nt |} in
  match http_get env (length (requests nt)) url with
  | NoResponse reason => (Raise (RequestException reason), nt')
  | Response status_code content =>
      if raise_for_status status_code
      then (Raise (HTTPError status_code), nt')
      else (Ok content, nt')
  end.

(** [@st.cache_data(ttl=...)]: an entry younger than [ttl] seconds is
    returned as it is; otherwise the function runs and, when it returns,
    its value is stored under the key with the current time.  An
    exception of the function passes through and stores nothing. *)
Definition cache_data (ttl : Z)
    (func : Env -> str -> Net -> result bytes * Net)
    (env : Env) (key : str) (nt : Net) : result bytes * Net :=
  let now := monotonic env (length (fetch_log nt)) in
  let nt0 := {| cache := cache nt;
                requests := requests nt;
                fetch_log := fetch_log nt ++ [key] |} in
  let miss :=
    match func env key nt0 with
    | (Ok value, nt1) =>
        (Ok value, {| cache := <[key := (value, now)]> (cache nt1);
                      requests := requests nt1;
                      fetch_log := fetch_log nt1 |})
    | (Raise e, nt1) => (Raise e, nt1)
    end in
  match cache nt !! key with
  | Some (value, stored) =>
      if (now <? stored + ttl)%Z then (Ok value, nt0) else miss
  | None => miss
  end.

Definition fetch_image_bytes : Env -> str -> Net -> result bytes * Net :=
  cache_data (60 * 60) fetch_body.

(** Several calls in a row. *)
Fixpoint fetch_all (env : Env) (urls : list str) (nt : Net)
  : list (result bytes) * Net :=
  match urls with
  | [] => ([], nt)
  | u :: rest =>
      let (r, nt1) := fetch_image_bytes env u nt in
      let (rs, nt2) := fetch_all env rest nt1 in
      (r :: rs, nt2)
  end.

(** How many of the requests sent went to [url]. *)
Definition count_requests (url : str) (l : list str) : nat :=
  length (filter (fun u => u = url) l).

(** ** SessionHistoryStore (t2i.py, lines 123-125, 155-163, 225-227) *)

(** [st.session_state.history.insert(0, record)] *)
Definition insert_history (r : Item.t) (s : Session) : Session :=
  {| history := r :: history s; favorites := favorites s |}.

(** [st.session_state.history = []] *)
Definition clear_history (s : Session) : Session :=
  {| history := []; favorites := favorites s |}.

(** [st.session_state.favorites.insert(0, item)] *)
Definition promote_to_favorite (item : Item.t) (s : Session) : Session :=
  {| history := history s; favorites := item :: favorites s |}.

(** The handler of the clear button. *)
Definition on_clear (wd : World) : World :=
  emit (st_success (lit "History cleared " ++ [9989]))
    {| session := clear_history (session wd);
       net := net wd;
       page := page wd |}.

(** ** BatchGenerator (t2i.py, lines 133-165) *)

Inductive SeedMode : Type := Random | Fixed.

(** The seed input (t2i.py, lines 110-112): [None] unless the mode is
    fixed, then the number entered, which the widget keeps between 0 and
    999999. *)
Definition seed_input_range (entered : Z) : bool :=
  ((0 <=? entered) && (entered <=? 999999))%Z.

Definition read_seed_value (seed_mode : SeedMode) (entered : Z) : option Z :=
  let seed_value := None in
  match seed_mode with
  | Fixed => Some entered
  | Random => seed_value
  end.

(** [int(datetime.utcnow().timestamp() * 1000) % 1000000 + i] *)
Definition random_seed (env : Env) (i : nat) : Z :=
  (utc_millis env i mod 1000000 + Z.of_nat i)%Z.

(** The seed of variation [i] (t2i.py, lines 139-142): [seed_value],
    replaced in the random mode. *)
Definition variation_seed (env : Env) (seed_mode : SeedMode)
    (seed_value : option Z) (i : nat) : option Z :=
  let seed_i := seed_value in
  match seed_mode with
  | Random => Some (random_seed env i)
  | Fixed => seed_i
  end.

(** The first loop: one URL per variation, with its seed. *)
Fixpoint url_loop (env : Env) (final_prompt : str) (w h : Z)
    (seed_mode : SeedMode) (seed_value : option Z)
    (range : list nat) (urls : list (str * option Z))
  : result (list (str * option Z)) :=
  match range with
  | [] => Ok urls
  | i :: rest =>
      let seed_i := variation_seed env seed_mode seed_value i in
      match pollinations_url final_prompt w h seed_i with
      | Raise e => Raise e
      | Ok url =>
          url_loop env final_prompt w h seed_mode seed_value rest
            (urls ++ [(url, seed_i)])
      end
  end.

(** [f"ps333_{style.lower()}_{idx}_seed{s}.png"] *)
Definition filename (style : str) (idx : nat) (s : option Z) : str :=
  lit "ps333_" ++ lower style ++ lit "_" ++ str_of_int (Z.of_nat idx)
  ++ lit "_seed" ++ str_of_opt_int s ++ lit ".png".

(** The second loop: fetch each URL in turn; a success is kept and pushed
    to the history, a failure is reported and the loop goes on. *)
Fixpoint download_loop (env : Env) (style final_prompt : str) (w h : Z)
    (idx : nat) (urls : list (str * option Z))
    (images_downloaded : list (str * bytes)) (wd : World)
  : list (str * bytes) * World :=
  match urls with
  | [] => (images_downloaded, wd)
  | (url, s) :: rest =>
      match fetch_image_bytes env url (net wd) with
      | (Ok img_bytes, nt) =>
          let item := {| Item.url := url;
                         Item.prompt := final_prompt;
                         Item.style := style;
                         Item.w := w;
                         Item.h := h;
                         Item.seed := s;
                         Item.ts := local_now env (length (fetch_log nt)) |} in
          download_loop env style final_prompt w h (S idx) rest
            (images_downloaded ++ [(filename style idx s, img_bytes)])
            {| session := insert_history item (session wd);
               net := nt;
               page := page wd |}
      | (Raise e, nt) =>
          download_loop env style final_prompt w h (S idx) rest
            images_downloaded
            (emit (st_error_fetch idx e)
               {| session := session wd; net := nt; page := page wd |})
      end
  end.

(** The block under the spinner. *)
Definition generate_batch (env : Env) (style final_prompt : str) (w h : Z)
    (variations : Z) (seed_mode : SeedMode) (seed_value : option Z)
    (wd : World) : result (list (str * bytes) * World) :=
  match url_loop env final_prompt w h seed_mode seed_value
          (seq 0 (Z.to_nat variations)) [] with
  | Raise e => Raise e
  | Ok urls => Ok (download_loop env style final_prompt w h 1 urls [] wd)
  end.

(** The handler of the generate button (t2i.py, lines 127-192); an
    exception that leaves it ends the run. *)
Definition on_generate (env : Env) (prompt negative style : str) (w h : Z)
    (variations : Z) (seed_mode : SeedMode) (seed_value : option Z)
    (wd : World) : result World :=
  if negb (truthy (strip prompt))
  then Ok (emit (st_warning (lit "Please enter a valid prompt.")) wd)
  else
    let final_prompt := build_prompt style prompt negative in
    match generate_batch env style final_prompt w h variations
            seed_mode seed_value wd with
    | Raise e => Raise e
    | Ok (images_downloaded, wd') =>
        if truthy_list images_downloaded
        then Ok (emit (st_results images_downloaded)
                   (emit (st_success
                            ([9989] ++ lit " Images created! Ruko Zra Sabr Kro "
                             ++ [9995])) wd'))
        else Ok wd'
    end.

(** ** Reading a batch off the results of its fetches *)

(** The files a batch keeps, given what each fetch returned. *)
Fixpoint images_of (style : str) (idx : nat) (urls : list (str * option Z))
    (rs : list (result bytes)) : list (str * bytes) :=
  match urls, rs with
  | (_, s) :: urls', Ok img_bytes :: rs' =>
      (filename style idx s, img_bytes) :: images_of style (S idx) urls' rs'
  | _ :: urls', Raise _ :: rs' => images_of style (S idx) urls' rs'
  | _, _ => []
  end.

(** The failures a batch reports, given what each fetch returned. *)
Fixpoint failures_of (idx : nat) (rs : list (result bytes)) : list widget :=
  match rs with
  | [] => []
  | Ok _ :: rs' => failures_of (S idx) rs'
  | Raise e :: rs' => st_error_fetch idx e :: failures_of (S idx) rs'
  end.

(** ** The encoding of the prompt, character by character

    What the specification says of the prompt segment, read on the
    characters of the prompt rather than on its UTF-8 bytes. *)

(** [string.punctuation] *)
Definition is_punctuation (c : N) : bool :=
  ((33 <=? c) && (c <=? 47)) || ((58 <=? c) && (c <=? 64))
  || ((91 <=? c) && (c <=? 96)) || ((123 <=? c) && (c <=? 126)).

(** One character, percent-encoded: [%XX] for each byte of its UTF-8. *)
Definition percent_encoded (c : N) : str :=
  match utf8_encode_char c with
  | Some bs => flat_map Urllib.percent bs
  | None => []
  end.

(** The characters the specification wants encoded: the space, the
    punctuation and everything outside ASCII. *)
Definition spec_must_encode (c : N) : bool :=
  (c =? 32) || is_punctuation c || (128 <=? c).

Definition spec_quote_char (c : N) : str :=
  if spec_must_encode c then percent_encoded c else [c].

(** The characters [quote] leaves as they are. *)
Definition kept_verbatim (c : N) : bool :=
  Urllib.is_alnum c
  || (c =? 95) || (c =? 46) || (c =? 45) || (c =? 126) || (c =? 47).

Definition quote_char (c : N) : str :=
  if kept_verbatim c then [c] else percent_encoded c.

(** The alphabet of a quoted prompt: what is kept, and [%]. *)
Definition url_path_char (c : N) : bool := kept_verbatim c || (c =? 37).

(** ** Sample runs *)

(** An endpoint that answers every request with the same picture. *)
Definition always_ok (content : bytes) (utc : nat -> Z) (timer : nat -> Z)
  : Env :=
  {| utc_millis := utc;
     monotonic := timer;
     http_get := fun _ _ => Response 200 content;
     local_now := fun _ => lit "2024-01-01 00:00:00" |}.

(** The wall clock is set back by one millisecond between two
    variations. *)
Definition clock_set_back : Env :=
  always_ok [137; 80; 78; 71] (fun i => 1000 - Z.of_nat i)%Z (fun _ => 0%Z).

(** The run is suspended for 999.999 s between two variations. *)
Definition clock_paused : Env :=
  always_ok [137; 80; 78; 71]
    (fun i => 1699999999999 + 999999 * Z.of_nat i)%Z (fun _ => 0%Z).

(** The wall clock reads 999999 ms (modulo a million) and stands still. *)
Definition clock_at_999999 : Env :=
  always_ok [137; 80; 78; 71] (fun _ => 1699999999999)%Z (fun _ => 0%Z).

(** The second request of a run fails with a 500, the others succeed. *)
Definition second_fails : Env :=
  {| utc_millis := fun i => (5000 + Z.of_nat i)%Z;
     monotonic := fun k => Z.of_nat k;
     http_get := fun k _ =>
       if Nat.eqb k 1 then Response 500 [] else Response 200 [137; 80; 78; 71];
     local_now := fun _ => lit "2024-01-01 00:00:00" |}.

Definition empty_net : Net :=
  {| cache := ∅; requests := []; fetch_log := [] |}.

Definition empty_world : World :=
  {| session := init_state None None; net := empty_net; page := [] |}.

(** ** Sizes (t2i.py, lines 20-25 and 98-108) *)

(** The dictionary of presets, in the order of its keys. *)
Definition RATIO_PRESETS : list (str * (Z * Z)) :=
  [(lit "1:1 (Square)", (1024, 1024)%Z);
   (lit "9:16 (Reels/Shorts)", (768, 1365)%Z);
   (lit "16:9 (Landscape)", (1365, 768)%Z);
   (lit "4:5 (Instagram Post)", (1024, 1280)%Z)].

(** [d[key]]; [None] is the [KeyError]. *)
Fixpoint getitem (key : str) (d : list (str * (Z * Z))) : option (Z * Z) :=
  match d with
  | [] => None
  | (k, v) :: rest => if decide (k = key) then Some v else getitem key rest
  end.

(** [list(RATIO_PRESETS.keys())], the options of the preset box. *)
Definition ratio_options : list str := map fst RATIO_PRESETS.

(** What [st.number_input(min_value=256, max_value=2048, ...)] lets
    through. *)
Definition size_input_range (entered : Z) : bool :=
  ((256 <=? entered) && (entered <=? 2048))%Z.

(** Lines 104-108: the numbers entered when the custom size is ticked
    (the preset is still looked up, for the default of the inputs),
    the preset otherwise. *)
Definition resolve_size (ratio : str) (use_custom : bool)
    (entered_w entered_h : Z) : option (Z * Z) :=
  match getitem ratio RATIO_PRESETS with
  | None => None
  | Some (pw, ph) =>
      if use_custom then Some (entered_w, entered_h) else Some (pw, ph)
  end.

(** ** Where the content of the cache comes from *)

(** The endpoint answered one of the requests sent for [url] with
    [content] and a status that [raise_for_status] lets through. *)
Definition served_by (env : Env) (sent : list str) (url : str)
    (content : bytes) : Prop :=
  exists k status_code,
    sent !! k = Some url
    /\ http_get env k url = Response status_code content
    /\ raise_for_status status_code = false.

(** Every entry of the cache is an answer of the endpoint for its key. *)
Definition cache_sound (env : Env) (nt : Net) : Prop :=
  forall url content stored,
    cache nt !! url = Some (content, stored) ->
    served_by env (requests nt) url content.

(* ===================================================================== *)
(** * Part II: properties                                                 *)
(* ===================================================================== *)

(** Quotients and remainders are named before [lia] sees them, so that
    it keeps them as natural numbers. *)
Ltac name_divmod :=
  repeat match goal with
    | |- context [N.div ?a ?b] =>
        let q := fresh "q" in set (q := N.div a b) in *; clearbody q
    | |- context [N.modulo ?a ?b] =>
        let r := fresh "r" in set (r := N.modulo a b) in *; clearbody r
    end.

(** ** Strings *)

Section StringFacts.

Lemma lstrip_head (s t : str) (c : N) :
  lstrip s = c :: t -> isspace c = false.
Proof.
  induction s as [|a s IH]; simpl; [discriminate|].
  destruct (isspace a) eqn:Ha; [exact IH|].
  intros [= <- _]. exact Ha.
Qed.

Lemma rstrip_nil_inv (s : str) :
  rstrip s = [] -> Forall (fun c => isspace c = true) s.
Proof.
  induction s as [|a s IH]; simpl; [constructor|].
  destruct (rstrip s) eqn:Hr; [|discriminate].
  destruct (isspace a) eqn:Ha; [|discriminate].
  intros _. constructor; auto.
Qed.

Lemma rstrip_last (s t : str) (c : N) :
  rstrip s = t ++ [c] -> isspace c = false.
Proof.
  revert t. induction s as [|a s IH]; intros t; simpl.
  - destruct t; discriminate.
  - destruct (rstrip s) as [|r rs] eqn:Hr.
    + destruct (isspace a) eqn:Ha.
      * destruct t; discriminate.
      * destruct t as [|x t]; simpl.
        -- intros [= <-]. exact Ha.
        -- intros [= _ H]. destruct t; discriminate.
    + destruct t as [|x t]; simpl.
      * discriminate.
      * intros [= _ H]. exact (IH t H).
Qed.

Lemma strip_last (s t : str) (c : N) :
  strip s = t ++ [c] -> isspace c = false.
Proof. apply rstrip_last. Qed.

Lemma rstrip_cons_nonspace (c : N) (t : str) :
  isspace c = false -> rstrip (c :: t) = c :: rstrip t.
Proof. simpl. intros ->. destruct (rstrip t); reflexivity. Qed.

(** Stripping the two ends in either order gives the same string. *)
Lemma rstrip_lstrip (s : str) : rstrip (lstrip s) = lstrip (rstrip s).
Proof.
  induction s as [|a s IH]; [reflexivity|].
  destruct (isspace a) eqn:Ha.
  - change (lstrip (a :: s)) with (if isspace a then lstrip s else a :: s).
    rewrite Ha, IH. simpl. destruct (rstrip s) eqn:Hr.
    + rewrite Ha. reflexivity.
    + simpl. rewrite Ha. reflexivity.
  - change (lstrip (a :: s)) with (if isspace a then lstrip s else a :: s).
    rewrite Ha, rstrip_cons_nonspace by exact Ha.
    simpl. rewrite Ha. reflexivity.
Qed.

(** Only the tail of a concatenation matters to its right end. *)
Lemma rstrip_app_rstrip (x p : str) :
  rstrip (x ++ p) = rstrip (x ++ rstrip p).
Proof.
  induction x as [|a x IH]; simpl.
  - induction p as [|b p IHp]; [reflexivity|].
    simpl. destruct (rstrip p) eqn:Hr.
    + destruct (isspace b) eqn:Hb; simpl; [reflexivity|].
      rewrite Hb. reflexivity.
    + simpl in IHp. simpl. rewrite <- IHp. reflexivity.
  - rewrite IH. reflexivity.
Qed.

Lemma strip_app_strip_r (x p : str) :
  lstrip p = p -> strip (x ++ p) = strip (x ++ strip p).
Proof.
  intros Hp. unfold strip at 3. rewrite Hp.
  unfold strip. rewrite !rstrip_lstrip. f_equal.
  apply rstrip_app_rstrip.
Qed.

Lemma startswith_app (p k : str) : startswith p (p ++ k) = true.
Proof.
  induction p as [|a p IH]; [reflexivity|].
  simpl. rewrite N.eqb_refl. exact IH.
Qed.

Lemma startswith_inv (p s : str) :
  startswith p s = true -> exists k, s = p ++ k.
Proof.
  revert s. induction p as [|a p IH]; intros s; simpl.
  - intros _. exists s. reflexivity.
  - destruct s as [|b s]; [discriminate|].
    intros [Hab Hps]%andb_prop. apply N.eqb_eq in Hab. subst b.
    destruct (IH s Hps) as [k ->]. exists k. reflexivity.
Qed.

Lemma endswith_app (p k : str) : endswith p (k ++ p) = true.
Proof. unfold endswith. rewrite rev_app_distr. apply startswith_app. Qed.

Lemma endswith_inv (p s : str) :
  endswith p s = true -> exists k, s = k ++ p.
Proof.
  unfold endswith. intros [k Hk]%startswith_inv. exists (rev k).
  rewrite <- (rev_involutive s), Hk, rev_app_distr, rev_involutive.
  reflexivity.
Qed.

End StringFacts.

(** ** PromptBuilder *)

Section PromptBuilder.

Lemma strip_not_endswith_space (s k : str) :
  strip s <> k ++ lit ". Negative prompt: ".
Proof.
  change (lit ". Negative prompt: ") with (lit ". Negative prompt:" ++ [32]).
  rewrite app_assoc. intros H%strip_last. discriminate.
Qed.

Lemma truthy_true (s : str) : truthy s = true <-> s <> [].
Proof. destruct s; simpl; split; congruence. Qed.

(** C2, as the code has it.  [build_prompt] strips the whole string
    ["{style} style, {prompt}"] (so the user prompt loses its trailing white
    space and keeps its leading white space), the result begins with that
    stripped string, and it ends with [". Negative prompt: "] followed by
    the trimmed negative prompt if and only if the trimmed negative prompt
    is not empty; otherwise nothing is appended.  For a user prompt without
    leading white space the head is the one the specification describes. *)
Theorem build_prompt_shape (style prompt negative : str) :
  let base := strip (style ++ lit " style, " ++ prompt) in
  let neg := strip negative in
  let out := build_prompt style prompt negative in
  startswith base out = true
  /\ (neg <> [] -> out = base ++ lit ". Negative prompt: " ++ neg)
  /\ (neg = [] -> out = base)
  /\ (endswith (lit ". Negative prompt: " ++ neg) out = true <-> neg <> [])
  /\ (lstrip prompt = prompt -> base = spec_prompt_head style prompt).
Proof.
  intros base neg out. subst out. unfold build_prompt. fold base neg.
  destruct neg as [|c neg'] eqn:Hneg; simpl truthy; cbv iota.
  - repeat split; try congruence.
    + rewrite <- (app_nil_r base) at 2. apply startswith_app.
    + intros [k Hk]%endswith_inv. rewrite app_nil_r in Hk.
      exfalso. exact (strip_not_endswith_space _ _ Hk).
    + intros Hp. subst base. unfold spec_prompt_head.
      rewrite !app_assoc. apply strip_app_strip_r, Hp.
  - repeat split; try congruence.
    + apply startswith_app.
    + intros _. apply endswith_app.
    + intros Hp. subst base. unfold spec_prompt_head.
      rewrite !app_assoc. apply strip_app_strip_r, Hp.
Qed.

(** C2 as stated fails: the user prompt is not trimmed on its own, its
    leading white space stays behind the comma. *)
Lemma build_prompt_keeps_leading_space :
  build_prompt (lit "Anime") (lit " cat") [] = lit "Anime style,  cat"
  /\ spec_prompt_head (lit "Anime") (lit " cat") = lit "Anime style, cat"
  /\ startswith (spec_prompt_head (lit "Anime") (lit " cat"))
        (build_prompt (lit "Anime") (lit " cat") []) = false.
Proof. repeat split; vm_compute; reflexivity. Qed.

Example build_prompt_fox :
  build_prompt (lit "Realistic") (lit "a red fox in snow") []
  = lit "Realistic style, a red fox in snow".
Proof. vm_compute. reflexivity. Qed.

Example build_prompt_negative :
  build_prompt (lit "Anime") (lit "cat ") (lit " blurry ")
  = lit "Anime style, cat. Negative prompt: blurry".
Proof. vm_compute. reflexivity. Qed.

End PromptBuilder.

(** ** RequestURLBuilder *)

Section RequestURLBuilder.

Import Urllib.

Example quote_sample :
  quote (lit "a b,c/d." ++ [233; 8364; 128512])
  = Ok (lit "a%20b%2Cc/d.%C3%A9%E2%82%AC%F0%9F%98%80").
Proof. vm_compute. reflexivity. Qed.

Example str_of_int_samples :
  str_of_int 1024 = lit "1024" /\ str_of_int 0 = lit "0"
  /\ str_of_int (-7) = lit "-7".
Proof. repeat split; vm_compute; reflexivity. Qed.

Lemma utf8_encode_char_scalar (c : N) :
  is_scalar c = true -> exists bs, utf8_encode_char c = Some bs.
Proof.
  unfold is_scalar, utf8_encode_char. intros H.
  destruct (c <? 128) eqn:H1; [eauto|].
  destruct (c <? 2048) eqn:H2; [eauto|].
  destruct (c <? 65536) eqn:H3.
  - destruct ((55296 <=? c) && (c <=? 57343)) eqn:H4; [|eauto].
    exfalso. apply andb_prop in H4 as [Ha Hb].
    apply N.leb_le in Ha, Hb.
    apply orb_prop in H as [H|H].
    + apply N.ltb_lt in H. lia.
    + apply andb_prop in H as [H _]. apply N.ltb_lt in H. lia.
  - destruct (c <? 1114112) eqn:H4; [eauto|].
    exfalso. apply N.ltb_ge in H3, H4.
    apply orb_prop in H as [H|H].
    + apply N.ltb_lt in H. lia.
    + apply andb_prop in H as [_ H]. apply N.leb_le in H. lia.
Qed.

Lemma utf8_encode_valid (s : str) :
  valid_text s = true -> exists bs, utf8_encode s = Some bs.
Proof.
  induction s as [|c s IH]; simpl; [eauto|].
  intros [Hc Hs]%andb_prop.
  destruct (utf8_encode_char_scalar c Hc) as [b ->].
  destruct (IH Hs) as [bs ->]. eauto.
Qed.

(** Every byte of a character outside ASCII has its high bit set. *)
Lemma utf8_encode_char_high (c : N) (bs : bytes) :
  128 <= c -> utf8_encode_char c = Some bs ->
  Forall (fun b => 128 <= b < 256) bs.
Proof.
  unfold utf8_encode_char. intros Hc.
  destruct (c <? 128) eqn:H1; [apply N.ltb_lt in H1; lia|].
  destruct (c <? 2048) eqn:H2.
  { apply N.ltb_lt in H2. intros [= <-].
    assert (c / 64 < 32) by (apply N.Div0.div_lt_upper_bound; lia).
    assert (c mod 64 < 64) by (apply N.mod_lt; lia).
    repeat (constructor; [cbv beta; name_divmod; lia|]). constructor. }
  destruct (c <? 65536) eqn:H3.
  { apply N.ltb_lt in H3.
    destruct ((55296 <=? c) && (c <=? 57343)); [discriminate|].
    intros [= <-].
    assert (c / 4096 < 16) by (apply N.Div0.div_lt_upper_bound; lia).
    assert ((c / 64) mod 64 < 64) by (apply N.mod_lt; lia).
    assert (c mod 64 < 64) by (apply N.mod_lt; lia).
    repeat (constructor; [cbv beta; name_divmod; lia|]). constructor. }
  destruct (c <? 1114112) eqn:H4; [|discriminate].
  apply N.ltb_lt in H4. intros [= <-].
  assert (c / 262144 < 5) by (apply N.Div0.div_lt_upper_bound; lia).
  assert ((c / 4096) mod 64 < 64) by (apply N.mod_lt; lia).
  assert ((c / 64) mod 64 < 64) by (apply N.mod_lt; lia).
  assert (c mod 64 < 64) by (apply N.mod_lt; lia).
  repeat (constructor; [cbv beta; name_divmod; lia|]). constructor.
Qed.

Lemma safe_below_128 (b : N) : safe b = true -> b < 128.
Proof.
  unfold safe, always_safe, is_alnum. intros H.
  repeat (apply orb_prop in H as [H|H]);
    try (apply andb_prop in H as [_ H]; apply N.leb_le in H; lia);
    apply N.eqb_eq in H; lia.
Qed.

Lemma kept_verbatim_safe (c : N) : kept_verbatim c = safe c.
Proof.
  unfold kept_verbatim, safe, always_safe.
  rewrite <- !orb_assoc. reflexivity.
Qed.

(** Quoting the bytes of one character is encoding that character. *)
Lemma quoter_utf8_char (c : N) (bs : bytes) :
  utf8_encode_char c = Some bs -> flat_map quoter bs = quote_char c.
Proof.
  intros Hbs. unfold quote_char, percent_encoded. rewrite Hbs.
  destruct (N.lt_ge_cases c 128) as [Hlt|Hge].
  - unfold utf8_encode_char in Hbs.
    apply N.ltb_lt in Hlt. rewrite Hlt in Hbs. injection Hbs as <-.
    simpl. rewrite app_nil_r. unfold quoter, percent.
    rewrite <- (kept_verbatim_safe c). reflexivity.
  - assert (Hk : kept_verbatim c = false).
    { rewrite kept_verbatim_safe. destruct (safe c) eqn:Hs; [|reflexivity].
      apply safe_below_128 in Hs. lia. }
    rewrite Hk. pose proof (utf8_encode_char_high c bs Hge Hbs) as Hall.
    clear Hbs Hk. induction Hall as [|b bs Hb _ IH]; [reflexivity|].
    simpl. rewrite IH. f_equal. unfold quoter.
    destruct (safe b) eqn:Hs; [|reflexivity].
    apply safe_below_128 in Hs. lia.
Qed.

Lemma quote_flat_map (s : str) :
  valid_text s = true -> quote s = Ok (flat_map quote_char s).
Proof.
  unfold quote. induction s as [|c s IH]; [reflexivity|].
  simpl. intros [Hc Hs]%andb_prop.
  destruct (utf8_encode_char_scalar c Hc) as [b Hb]. rewrite Hb.
  specialize (IH Hs). destruct (utf8_encode s) as [bs|]; [|discriminate].
  injection IH as IH. rewrite flat_map_app, IH.
  rewrite (quoter_utf8_char c b Hb). reflexivity.
Qed.

(** [valid_text] is the domain of [quote]: on any other string the
    strict encoder raises. *)
Lemma quote_raises (s : str) :
  valid_text s = false -> quote s = Raise UnicodeEncodeError.
Proof.
  unfold quote. intros Hs.
  replace (utf8_encode s) with (@None bytes); [reflexivity|].
  symmetry. induction s as [|c s IH]; [discriminate|].
  simpl in *. apply andb_false_iff in Hs as [Hc|Hs].
  - replace (utf8_encode_char c) with (@None bytes); [reflexivity|].
    symmetry. unfold is_scalar in Hc. unfold utf8_encode_char.
    apply orb_false_iff in Hc as [H1 H2].
    apply N.ltb_ge in H1.
    destruct (c <? 128) eqn:E1; [apply N.ltb_lt in E1; lia|].
    destruct (c <? 2048) eqn:E2; [apply N.ltb_lt in E2; lia|].
    destruct (c <? 65536) eqn:E3.
    + apply andb_false_iff in H2 as [H2|H2].
      * apply N.ltb_ge in H2.
        replace (55296 <=? c) with true by (symmetry; apply N.leb_le; lia).
        replace (c <=? 57343) with true by (symmetry; apply N.leb_le; lia).
        reflexivity.
      * apply N.leb_gt in H2. apply N.ltb_lt in E3. lia.
    + apply N.ltb_ge in E3.
      apply andb_false_iff in H2 as [H2|H2].
      * apply N.ltb_ge in H2. lia.
      * apply N.leb_gt in H2.
        replace (c <? 1114112) with false; [reflexivity|].
        symmetry. apply N.ltb_ge. lia.
  - rewrite (IH Hs). destruct (utf8_encode_char c); reflexivity.
Qed.

Lemma hexdigit_alnum (n : N) : n < 16 -> is_alnum (hexdigit n) = true.
Proof.
  intros Hn. unfold hexdigit, is_alnum.
  destruct (n <? 10) eqn:H10.
  - apply N.ltb_lt in H10.
    replace ((48 <=? 48 + n) && (48 + n <=? 57)) with true;
      [apply orb_true_r|].
    symmetry. apply andb_true_intro. split; apply N.leb_le; lia.
  - apply N.ltb_ge in H10.
    replace ((65 <=? 55 + n) && (55 + n <=? 90)) with true; [reflexivity|].
    symmetry. apply andb_true_intro. split; apply N.leb_le; lia.
Qed.

Lemma percent_alphabet (b : N) :
  b < 256 -> Forall (fun c => url_path_char c = true) (percent b).
Proof.
  intros Hb. unfold percent.
  assert (b / 16 < 16) by (apply N.Div0.div_lt_upper_bound; lia).
  assert (b mod 16 < 16) by (apply N.mod_lt; lia).
  constructor; [reflexivity|].
  do 2 (constructor;
        [unfold url_path_char, kept_verbatim;
         rewrite hexdigit_alnum by assumption; reflexivity|]).
  constructor.
Qed.

Lemma utf8_encode_char_bytes (c : N) (bs : bytes) :
  utf8_encode_char c = Some bs -> Forall (fun b => b < 256) bs.
Proof.
  intros Hbs. destruct (N.lt_ge_cases c 128) as [Hlt|Hge].
  - unfold utf8_encode_char in Hbs.
    pose proof Hlt as Hlt'. apply N.ltb_lt in Hlt'. rewrite Hlt' in Hbs.
    injection Hbs as <-. repeat constructor. lia.
  - eapply List.Forall_impl; [|exact (utf8_encode_char_high c bs Hge Hbs)].
    simpl. intros b Hb. lia.
Qed.

Lemma quote_char_alphabet (c : N) :
  Forall (fun x => url_path_char x = true) (quote_char c).
Proof.
  unfold quote_char. destruct (kept_verbatim c) eqn:Hk.
  - repeat constructor. unfold url_path_char. rewrite Hk. reflexivity.
  - unfold percent_encoded.
    destruct (utf8_encode_char c) as [bs|] eqn:Hbs; [|constructor].
    apply utf8_encode_char_bytes in Hbs.
    induction Hbs as [|b bs Hb _ IH]; [constructor|].
    change (flat_map percent (b :: bs))
      with (percent b ++ flat_map percent bs).
    apply Forall_app. split; [apply percent_alphabet, Hb|exact IH].
Qed.

Lemma kept_verbatim_spec (c : N) :
  kept_verbatim c = true <->
  (65 <= c <= 90 \/ 97 <= c <= 122 \/ 48 <= c <= 57
   \/ c = 95 \/ c = 46 \/ c = 45 \/ c = 126 \/ c = 47).
Proof.
  unfold kept_verbatim, is_alnum.
  rewrite !orb_true_iff, !andb_true_iff, !N.leb_le, !N.eqb_eq. tauto.
Qed.

Lemma is_punctuation_spec (c : N) :
  is_punctuation c = true <->
  (33 <= c <= 47 \/ 58 <= c <= 64 \/ 91 <= c <= 96 \/ 123 <= c <= 126).
Proof.
  unfold is_punctuation.
  rewrite !orb_true_iff, !andb_true_iff, !N.leb_le. tauto.
Qed.

(** The space, the characters outside ASCII and the punctuation other
    than [_ . - ~ /] are not kept. *)
Lemma encoded_classes (c : N) :
  c = 32 \/ 128 <= c
  \/ (is_punctuation c = true
      /\ c <> 95 /\ c <> 46 /\ c <> 45 /\ c <> 126 /\ c <> 47) ->
  kept_verbatim c = false.
Proof.
  intros H. destruct (kept_verbatim c) eqn:Hk; [|reflexivity].
  apply kept_verbatim_spec in Hk.
  destruct H as [H|[H|[H Hne]]]; [lia|lia|].
  apply is_punctuation_spec in H. lia.
Qed.

Lemma str_of_uint_digits (d : Decimal.uint) :
  Forall (fun c => 48 <= c <= 57) (lit (NilEmpty.string_of_uint d)).
Proof.
  induction d; simpl; [constructor|..];
    (constructor; [cbv; split; discriminate|assumption]).
Qed.

(** A printed integer is made of digits, after a sign if negative. *)
Lemma str_of_int_chars (n : Z) :
  Forall (fun c => c = 45 \/ 48 <= c <= 57) (str_of_int n).
Proof.
  assert (Hu : forall d,
             Forall (fun c => c = 45 \/ 48 <= c <= 57)
               (lit (NilZero.string_of_uint d))).
  { intros d.
    assert (Hd : Forall (fun c => 48 <= c <= 57)
                   (lit (NilZero.string_of_uint d))).
    { destruct d; try apply (str_of_uint_digits (_ d)).
      repeat constructor; cbv; discriminate. }
    eapply List.Forall_impl; [|exact Hd]. simpl. auto. }
  unfold str_of_int. destruct (Z.to_int n) as [d|d]; simpl.
  - apply Hu.
  - constructor; [left; reflexivity|apply Hu].
Qed.

Lemma str_of_int_no_amp (n : Z) : ~ In 38 (str_of_int n).
Proof.
  intros Hin. pose proof (str_of_int_chars n) as Hall.
  rewrite List.Forall_forall in Hall. specialize (Hall 38 Hin). lia.
Qed.

(** What follows the last separator of a string is determined by it. *)
Lemma after_last_sep (x : N) (a a' b b' : str) :
  a ++ x :: b = a' ++ x :: b' -> ~ In x b -> ~ In x b' -> b = b'.
Proof.
  revert a'. induction a as [|y a IH]; intros [|y' a'] Heq Hb Hb'.
  - injection Heq as Heq. exact Heq.
  - injection Heq as _ Heq. exfalso. apply Hb. rewrite Heq.
    apply in_or_app. right. left. reflexivity.
  - injection Heq as _ Heq. exfalso. apply Hb'. rewrite <- Heq.
    apply in_or_app. right. left. reflexivity.
  - injection Heq as _ Heq. exact (IH a' Heq Hb Hb').
Qed.

(** The URL of a prompt that can be encoded. *)
Lemma pollinations_url_ok (final_prompt : str) (width height : Z)
    (seed : option Z) :
  valid_text final_prompt = true ->
  pollinations_url final_prompt width height seed
  = Ok (lit "https://image.pollinations.ai/prompt/"
        ++ flat_map quote_char final_prompt
        ++ lit "?width=" ++ str_of_int width
        ++ lit "&height=" ++ str_of_int height
        ++ match seed with
           | Some s => lit "&seed=" ++ str_of_int s
           | None => []
           end).
Proof.
  intros Hv. unfold pollinations_url. rewrite (quote_flat_map _ Hv).
  destruct seed as [s|].
  - rewrite <- !app_assoc. reflexivity.
  - rewrite app_nil_r. reflexivity.
Qed.

Lemma pollinations_url_raises (final_prompt : str) (width height : Z)
    (seed : option Z) :
  valid_text final_prompt = false ->
  pollinations_url final_prompt width height seed = Raise UnicodeEncodeError.
Proof.
  intros Hv. unfold pollinations_url. rewrite (quote_raises _ Hv).
  reflexivity.
Qed.

(** C3.  For a prompt that [str.encode] accepts, [pollinations_url]
    returns exactly
    [https://image.pollinations.ai/prompt/{encoded}?width={w}&height={h}],
    followed by [&seed={seed}] when a seed is given and by nothing when
    the seed is [None]: the URL ends with some [&seed={s}] if and only if
    a seed is given. *)
Theorem pollinations_url_format (final_prompt : str) (width height : Z)
    (seed : option Z) :
  valid_text final_prompt = true ->
  exists encoded url,
    quote final_prompt = Ok encoded
    /\ pollinations_url final_prompt width height seed = Ok url
    /\ url = lit "https://image.pollinations.ai/prompt/" ++ encoded
             ++ lit "?width=" ++ str_of_int width
             ++ lit "&height=" ++ str_of_int height
             ++ match seed with
                | Some s => lit "&seed=" ++ str_of_int s
                | None => []
                end
    /\ ((exists s, endswith (lit "&seed=" ++ str_of_int s) url = true)
        <-> seed <> None).
Proof.
  intros Hv. exists (flat_map quote_char final_prompt).
  unfold pollinations_url. rewrite (quote_flat_map _ Hv).
  destruct seed as [s|].
  - eexists. split; [reflexivity|]. split; [reflexivity|].
    split; [rewrite <- !app_assoc; reflexivity|].
    split; [discriminate|]. intros _. exists s.
    apply endswith_app.
  - eexists. split; [reflexivity|]. split; [reflexivity|].
    split; [rewrite app_nil_r; reflexivity|].
    split; [|congruence]. intros [s [k Hk]%endswith_inv]. exfalso.
    assert (Hk' : k ++ 38 :: (lit "seed=" ++ str_of_int s)
                  = (lit "https://image.pollinations.ai/prompt/"
                     ++ flat_map quote_char final_prompt
                     ++ lit "?width=" ++ str_of_int width)
                    ++ 38 :: (lit "height=" ++ str_of_int height)).
    { rewrite <- !app_assoc. symmetry. exact Hk. }
    clear Hk. rename Hk' into Hk.
    apply after_last_sep in Hk.
    + discriminate Hk.
    + simpl. intros H.
      repeat (destruct H as [H|H]; [discriminate H|]).
      exact (str_of_int_no_amp _ H).
    + simpl. intros H.
      repeat (destruct H as [H|H]; [discriminate H|]).
      exact (str_of_int_no_amp _ H).
Qed.

Lemma pollinations_url_format_witness :
  valid_text (lit "a red fox") = true
  /\ exists encoded url,
      quote (lit "a red fox") = Ok encoded
      /\ pollinations_url (lit "a red fox") 1024 768 (Some 42%Z) = Ok url
      /\ url = lit "https://image.pollinations.ai/prompt/" ++ encoded
               ++ lit "?width=" ++ str_of_int 1024
               ++ lit "&height=" ++ str_of_int 768
               ++ lit "&seed=" ++ str_of_int 42
      /\ ((exists s, endswith (lit "&seed=" ++ str_of_int s) url = true)
          <-> Some 42%Z <> None).
Proof.
  split; [vm_compute; reflexivity|].
  apply (pollinations_url_format (lit "a red fox") 1024 768 (Some 42%Z)).
  vm_compute. reflexivity.
Defined.

Example pollinations_url_fox :
  pollinations_url (lit "a red fox") 1024 768 (Some 42%Z)
  = Ok (lit "https://image.pollinations.ai/prompt/a%20red%20fox?width=1024&height=768&seed=42")
  /\ pollinations_url (lit "a red fox") 1024 768 None
    = Ok (lit "https://image.pollinations.ai/prompt/a%20red%20fox?width=1024&height=768").
Proof. split; vm_compute; reflexivity. Qed.

(** C4, as the code has it.  The prompt segment of the URL is the prompt
    with every character replaced by its [quote_char]: ASCII letters,
    digits and the five characters [_ . - ~ /] stay as they are, every
    other character (the space, every character outside ASCII, every
    other punctuation character) becomes [%XX] for each byte of its
    UTF-8 encoding, so the segment consists of letters, digits,
    [_ . - ~ /] and [%] only. *)
Theorem pollinations_url_percent_encodes (final_prompt : str)
    (width height : Z) (seed : option Z) :
  valid_text final_prompt = true ->
  (exists rest,
      pollinations_url final_prompt width height seed
      = Ok (lit "https://image.pollinations.ai/prompt/"
            ++ flat_map quote_char final_prompt ++ rest))
  /\ Forall (fun c => url_path_char c = true)
        (flat_map quote_char final_prompt)
  /\ (forall c,
        c = 32 \/ 128 <= c
        \/ (is_punctuation c = true
            /\ c <> 95 /\ c <> 46 /\ c <> 45 /\ c <> 126 /\ c <> 47) ->
        quote_char c = percent_encoded c)
  /\ (forall c,
        c = 95 \/ c = 46 \/ c = 45 \/ c = 126 \/ c = 47 ->
        quote_char c = [c]).
Proof.
  intros Hv. repeat split.
  - rewrite (pollinations_url_ok final_prompt width height seed Hv).
    eexists. reflexivity.
  - induction final_prompt as [|c p IH]; [constructor|].
    simpl in Hv. apply andb_prop in Hv as [_ Hp].
    change (flat_map quote_char (c :: p))
      with (quote_char c ++ flat_map quote_char p).
    apply Forall_app. split; [apply quote_char_alphabet|exact (IH Hp)].
  - intros c Hc. unfold quote_char.
    rewrite (encoded_classes c Hc). reflexivity.
  - intros c Hc. unfold quote_char.
    replace (kept_verbatim c) with true; [reflexivity|].
    symmetry. apply kept_verbatim_spec. lia.
Qed.

Lemma pollinations_url_percent_encodes_witness :
  valid_text (lit "caf" ++ [233] ++ lit ", 2 cups.") = true
  /\ (exists rest,
        pollinations_url (lit "caf" ++ [233] ++ lit ", 2 cups.") 512 512 None
        = Ok (lit "https://image.pollinations.ai/prompt/"
              ++ flat_map quote_char (lit "caf" ++ [233] ++ lit ", 2 cups.")
              ++ rest))
  /\ flat_map quote_char (lit "caf" ++ [233] ++ lit ", 2 cups.")
     = lit "caf%C3%A9%2C%202%20cups.".
Proof.
  split; [vm_compute; reflexivity|]. split.
  - apply (pollinations_url_percent_encodes
             (lit "caf" ++ [233] ++ lit ", 2 cups.") 512 512 None).
    vm_compute. reflexivity.
  - vm_compute. reflexivity.
Defined.

(** C4 as stated fails: the full stop that [build_prompt] puts before
    the negative prompt is punctuation, and [quote] leaves it (and
    [_ - ~ /]) as it is. *)
Lemma quote_keeps_full_stop :
  build_prompt (lit "Anime") (lit "cat") (lit "blur")
  = lit "Anime style, cat. Negative prompt: blur"
  /\ quote (lit "Anime style, cat. Negative prompt: blur")
     = Ok (lit "Anime%20style%2C%20cat.%20Negative%20prompt%3A%20blur")
  /\ is_punctuation 46 = true
  /\ flat_map spec_quote_char (lit "Anime style, cat. Negative prompt: blur")
     = lit "Anime%20style%2C%20cat%2E%20Negative%20prompt%3A%20blur"
  /\ quote (lit "Anime style, cat. Negative prompt: blur")
     <> Ok (flat_map spec_quote_char
              (lit "Anime style, cat. Negative prompt: blur")).
Proof. repeat split; vm_compute; congruence. Qed.

End RequestURLBuilder.

(** ** Seeds of a batch *)

Section Seeds.

Variable env : Env.
Variables (final_prompt : str) (w h : Z).
Variables (seed_mode : SeedMode) (seed_value : option Z).
Hypothesis final_prompt_valid : valid_text final_prompt = true.

(** The first loop builds one pair per index, in order: the seed of the
    variation and the URL made with it. *)
Lemma url_loop_spec (range : list nat) (urls : list (str * option Z)) :
  exists new,
    url_loop env final_prompt w h seed_mode seed_value range urls
    = Ok (urls ++ new)
    /\ Forall2 (fun i us =>
                  snd us = variation_seed env seed_mode seed_value i
                  /\ pollinations_url final_prompt w h (snd us) = Ok (fst us))
         range new.
Proof.
  revert urls. induction range as [|i range IH]; intros urls.
  - exists []. simpl. rewrite app_nil_r. split; [reflexivity|constructor].
  - simpl.
    pose proof (pollinations_url_ok final_prompt w h
                  (variation_seed env seed_mode seed_value i)
                  final_prompt_valid) as Hu.
    rewrite Hu.
    match goal with
    | |- context [url_loop _ _ _ _ _ _ _ ?acc] =>
        destruct (IH acc) as (new & Hloop & Hall)
    end.
    eexists (_ :: new). split.
    + rewrite Hloop, <- app_assoc. reflexivity.
    + constructor; [|exact Hall]. simpl. split; [reflexivity|exact Hu].
Qed.

Lemma url_loop_seeds (n : nat) :
  exists urls,
    url_loop env final_prompt w h seed_mode seed_value (seq 0 n) [] = Ok urls
    /\ length urls = n
    /\ map snd urls = map (variation_seed env seed_mode seed_value) (seq 0 n).
Proof.
  destruct (url_loop_spec (seq 0 n) []) as (new & Hloop & Hall).
  exists new. split; [exact Hloop|].
  split.
  - rewrite <- (Forall2_length _ _ _ Hall). apply length_seq.
  - clear Hloop. induction Hall as [|i us range new [Hs _] _ IH];
      [reflexivity|].
    simpl. rewrite Hs, IH. reflexivity.
Qed.

End Seeds.

Section SeedClaims.

(** Two seeds of a batch differ as long as the clock does not go back
    and does not advance by more than [1000000 - n] ms while the [n]
    URLs are built. *)
Lemma random_seeds_distinct_steady (env : Env) (n i j : nat) :
  (forall a b, (a < b < n)%nat ->
     (0 <= utc_millis env b - utc_millis env a <= 1000000 - Z.of_nat n)%Z) ->
  (i < j < n)%nat ->
  random_seed env i <> random_seed env j.
Proof.
  intros Hclock Hij. specialize (Hclock i j Hij). unfold random_seed.
  pose proof (Z.mod_pos_bound (utc_millis env i) 1000000 eq_refl) as Hi.
  pose proof (Z.mod_pos_bound (utc_millis env j) 1000000 eq_refl) as Hj.
  pose proof (Z.div_mod (utc_millis env i) 1000000 ltac:(lia)) as Ei.
  pose proof (Z.div_mod (utc_millis env j) 1000000 ltac:(lia)) as Ej.
  set (ai := (utc_millis env i mod 1000000)%Z) in *.
  set (aj := (utc_millis env j mod 1000000)%Z) in *.
  set (qi := (utc_millis env i / 1000000)%Z) in *.
  set (qj := (utc_millis env j / 1000000)%Z) in *.
  clearbody ai aj qi qj. lia.
Qed.

(** C10.  In the random mode the seed of every variation of a batch of
    [n] is the reading of the clock modulo a million plus the index of
    the variation, and lies between 0 and [999999 + n - 1]; so do the
    seeds of the URLs the first loop builds.  The bound 999999 of the
    fixed-seed input can be exceeded: with the clock at 999999 ms the
    second variation gets the seed 1000000, a number the seed input does
    not take. *)
Theorem random_seed_bounds (env : Env) (final_prompt : str) (w h : Z)
    (seed_value : option Z) (n : nat) :
  (forall i, (i < n)%nat ->
     exists z,
       variation_seed env Random seed_value i = Some z
       /\ z = (utc_millis env i mod 1000000 + Z.of_nat i)%Z
       /\ (0 <= z <= 999999 + Z.of_nat n - 1)%Z)
  /\ (valid_text final_prompt = true ->
      exists urls,
        url_loop env final_prompt w h Random seed_value (seq 0 n) [] = Ok urls
        /\ length urls = n
        /\ Forall (fun us => exists z, snd us = Some z
                     /\ (0 <= z <= 999999 + Z.of_nat n - 1)%Z) urls)
  /\ (variation_seed clock_at_999999 Random seed_value 1 = Some 1000000%Z
      /\ seed_input_range 1000000 = false).
Proof.
  assert (Hseed : forall i, (i < n)%nat ->
             exists z,
               variation_seed env Random seed_value i = Some z
               /\ z = (utc_millis env i mod 1000000 + Z.of_nat i)%Z
               /\ (0 <= z <= 999999 + Z.of_nat n - 1)%Z).
  { intros i Hi. exists (random_seed env i).
    split; [reflexivity|]. split; [reflexivity|]. unfold random_seed.
    pose proof (Z.mod_pos_bound (utc_millis env i) 1000000 eq_refl).
    lia. }
  split; [exact Hseed|]. split; [|split; reflexivity].
  intros Hv.
  destruct (url_loop_spec env final_prompt w h Random seed_value Hv
              (seq 0 n) []) as (new & Hloop & Hall).
  exists new. split; [exact Hloop|]. split.
  - rewrite <- (Forall2_length _ _ _ Hall). apply length_seq.
  - assert (Hrange : Forall (fun i => (i < n)%nat) (seq 0 n)).
    { apply List.Forall_forall. intros i Hi%in_seq. lia. }
    clear Hloop. induction Hall as [|i us range new [Hs _] _ IH];
      [constructor|].
    inversion Hrange as [|? ? Hi Hrest]; subst.
    constructor; [|exact (IH Hrest)].
    destruct (Hseed i Hi) as (z & Hz & _ & Hb).
    exists z. split; [congruence|exact Hb].
Qed.

Lemma random_seed_bounds_witness :
  (exists z,
      variation_seed clock_set_back Random None 2 = Some z
      /\ z = (utc_millis clock_set_back 2 mod 1000000 + Z.of_nat 2)%Z
      /\ (0 <= z <= 999999 + Z.of_nat 3 - 1)%Z)
  /\ (exists urls,
        url_loop clock_set_back (lit "Anime style, cat") 1024 1024 Random
          None (seq 0 3) [] = Ok urls
        /\ length urls = 3%nat
        /\ Forall (fun us => exists z, snd us = Some z
                     /\ (0 <= z <= 999999 + Z.of_nat 3 - 1)%Z) urls).
Proof.
  destruct (random_seed_bounds clock_set_back (lit "Anime style, cat")
              1024 1024 None 3) as (H1 & H2 & _).
  split.
  - apply (H1 2%nat). lia.
  - apply H2. vm_compute. reflexivity.
Defined.

Example seed_above_input_range :
  exists u0 u1,
    url_loop clock_at_999999 (lit "Anime style, cat") 1024 1024 Random None
      (seq 0 2) []
    = Ok [(u0, Some 999999%Z); (u1, Some 1000000%Z)].
Proof. eexists. eexists. vm_compute. reflexivity. Qed.

(** C1 at a clock that is set back by one millisecond between the first
    two variations: the readings 1000 and 999 give the seeds [1000 + 0]
    and [999 + 1], the same seed twice, hence the same URL twice; the
    batch asks the endpoint once and keeps the same picture under two
    names. *)
Lemma random_seeds_collide :
  (exists u0 u1,
      url_loop clock_set_back (lit "Anime style, cat") 1024 1024 Random None
        (seq 0 2) []
      = Ok [(u0, Some 1000%Z); (u1, Some 1000%Z)]
      /\ u0 = u1)
  /\ (exists wd',
        generate_batch clock_set_back (lit "Anime") (lit "Anime style, cat")
          1024 1024 2 Random None empty_world
        = Ok ([(lit "ps333_anime_1_seed1000.png", [137; 80; 78; 71]);
               (lit "ps333_anime_2_seed1000.png", [137; 80; 78; 71])], wd')
        /\ length (requests (net wd')) = 1%nat).
Proof.
  split.
  - eexists. eexists. split; vm_compute; reflexivity.
  - eexists. split; vm_compute; reflexivity.
Qed.

(** The same with a clock that only moves forward: a run suspended for
    999999 ms after the first reading, taken at 999999 ms modulo a
    million. *)
Example seeds_collide_after_pause :
  exists u0 u1,
    url_loop clock_paused (lit "Anime style, cat") 1024 1024 Random None
      (seq 0 2) []
    = Ok [(u0, Some 999999%Z); (u1, Some 999999%Z)].
Proof. eexists. eexists. vm_compute. reflexivity. Qed.

Example read_seed_value_modes :
  read_seed_value Random 12345 = None
  /\ read_seed_value Fixed 12345 = Some 12345%Z
  /\ seed_input_range 12345 = true.
Proof. repeat split. Qed.

End SeedClaims.

(** ** ImageFetcher *)

Section ImageFetcher.

Variable env : Env.

Lemma fetch_body_requests (url : str) (nt : Net) :
  requests (snd (fetch_body env url nt)) = requests nt ++ [url]
  /\ cache (snd (fetch_body env url nt)) = cache nt
  /\ fetch_log (snd (fetch_body env url nt)) = fetch_log nt.
Proof.
  unfold fetch_body.
  destruct (http_get env (length (requests nt)) url) as [reason|code content];
    [|destruct (raise_for_status code)]; simpl; auto.
Qed.

(** A fresh entry: the stored content comes back, nothing is sent. *)
Lemma fetch_hit (url : str) (nt : Net) (content : bytes) (stored : Z) :
  cache nt !! url = Some (content, stored) ->
  (monotonic env (length (fetch_log nt)) < stored + 3600)%Z ->
  fetch_image_bytes env url nt
  = (Ok content, {| cache := cache nt;
                    requests := requests nt;
                    fetch_log := fetch_log nt ++ [url] |}).
Proof.
  intros Hc Hnow. unfold fetch_image_bytes, cache_data. rewrite Hc.
  change (60 * 60)%Z with 3600%Z.
  apply Z.ltb_lt in Hnow. rewrite Hnow. reflexivity.
Qed.

(** No entry, or a stale one: the body runs. *)
Lemma fetch_miss (url : str) (nt : Net) :
  (cache nt !! url = None
   \/ exists content stored,
       cache nt !! url = Some (content, stored)
       /\ (stored + 3600 <= monotonic env (length (fetch_log nt)))%Z) ->
  fetch_image_bytes env url nt
  = match fetch_body env url {| cache := cache nt;
                                requests := requests nt;
                                fetch_log := fetch_log nt ++ [url] |} with
    | (Ok value, nt1) =>
        (Ok value,
         {| cache := <[url := (value, monotonic env (length (fetch_log nt)))]>
                       (cache nt1);
            requests := requests nt1;
            fetch_log := fetch_log nt1 |})
    | (Raise e, nt1) => (Raise e, nt1)
    end.
Proof.
  unfold fetch_image_bytes, cache_data. change (60 * 60)%Z with 3600%Z.
  intros [Hc|(content & stored & Hc & Hold)]; rewrite Hc; [reflexivity|].
  apply Z.ltb_ge in Hold. rewrite Hold. reflexivity.
Qed.

(** Every call is logged, and sends at most one request, for its URL. *)
Lemma fetch_effects (url : str) (nt : Net) :
  fetch_log (snd (fetch_image_bytes env url nt)) = fetch_log nt ++ [url]
  /\ (requests (snd (fetch_image_bytes env url nt)) = requests nt
      \/ requests (snd (fetch_image_bytes env url nt)) = requests nt ++ [url]).
Proof.
  unfold fetch_image_bytes, cache_data.
  set (nt0 := {| cache := cache nt; requests := requests nt;
                 fetch_log := fetch_log nt ++ [url] |}).
  destruct (fetch_body_requests url nt0) as (Hr & _ & Hl).
  destruct (fetch_body env url nt0) as [[value|e] nt1] eqn:Hb;
    simpl in Hr, Hl;
    destruct (cache nt !! url) as [[value' stored]|];
    try destruct (_ <? _)%Z; simpl; rewrite ?Hr, ?Hl; auto.
Qed.

(** A call leaves the entries of the other URLs alone. *)
Lemma fetch_other (url other : str) (nt : Net) :
  other <> url ->
  cache (snd (fetch_image_bytes env other nt)) !! url = cache nt !! url.
Proof.
  intros Hne. unfold fetch_image_bytes, cache_data.
  set (nt0 := {| cache := cache nt; requests := requests nt;
                 fetch_log := fetch_log nt ++ [other] |}).
  destruct (fetch_body_requests other nt0) as (_ & Hc & _).
  destruct (fetch_body env other nt0) as [[value|e] nt1] eqn:Hb;
    simpl in Hc;
    destruct (cache nt !! other) as [[value' stored]|];
    try destruct (_ <? _)%Z; simpl; rewrite ?Hc;
    rewrite ?lookup_insert_ne by exact Hne; reflexivity.
Qed.

(** While an entry is fresh, no sequence of calls replaces it or sends a
    request for its URL. *)
Lemma fetch_all_keeps_fresh (url : str) (content : bytes) (stored : Z)
    (others : list str) (nt : Net) :
  cache nt !! url = Some (content, stored) ->
  (forall k, (k < length (fetch_log nt) + length others)%nat ->
     (monotonic env k < stored + 3600)%Z) ->
  let nt' := snd (fetch_all env others nt) in
  cache nt' !! url = Some (content, stored)
  /\ fetch_log nt' = fetch_log nt ++ others
  /\ count_requests url (requests nt') = count_requests url (requests nt).
Proof.
  revert nt. induction others as [|u others IH]; intros nt Hc Hfresh.
  - simpl. rewrite app_nil_r. auto.
  - simpl.
    destruct (fetch_image_bytes env u nt) as [r nt1] eqn:Hf.
    destruct (fetch_all env others nt1) as [rs nt2] eqn:Hall. simpl.
    assert (Hnt1 : cache nt1 !! url = Some (content, stored)
                   /\ fetch_log nt1 = fetch_log nt ++ [u]
                   /\ count_requests url (requests nt1)
                      = count_requests url (requests nt)).
    { destruct (decide (u = url)) as [->|Hne].
      - rewrite fetch_hit with (content := content) (stored := stored) in Hf.
        + injection Hf as _ <-. simpl. auto.
        + exact Hc.
        + apply Hfresh. simpl. lia.
      - pose proof (fetch_other url u nt Hne) as Ho.
        destruct (fetch_effects u nt) as [Hl Hr].
        rewrite Hf in Ho, Hl, Hr. simpl in Ho, Hl, Hr.
        rewrite Ho. split; [exact Hc|]. split; [exact Hl|].
        destruct Hr as [->| ->]; [reflexivity|].
        unfold count_requests. rewrite filter_app, length_app.
        rewrite filter_cons_False by exact Hne. simpl. lia. }
    destruct Hnt1 as (Hc1 & Hl1 & Hr1).
    specialize (IH nt1 Hc1). rewrite Hall in IH. simpl in IH.
    destruct IH as (Hc2 & Hl2 & Hr2).
    + intros k Hk. apply Hfresh. rewrite Hl1, length_app in Hk.
      simpl in *. lia.
    + rewrite Hc2, Hl2, Hr2, Hl1, Hr1, <- app_assoc. auto.
Qed.

End ImageFetcher.

Section CacheClaim.

(** C5.  With [now] the reading of the cache timer at a call of
    [fetch_image_bytes]:
    - an entry stored less than 3600 seconds ago is returned as it is and
      no request is sent;
    - without an entry, or with one that is 3600 seconds old or more, one
      request is sent, and when it succeeds the content is stored under
      the URL with the time [now];
    - after a call that fetched the content from the endpoint, every later
      call for the same URL whose reading is below [now + 3600] (the
      timer never going back, whatever was fetched in between) returns
      that content without a request: the endpoint has been asked for
      the URL once. *)
Theorem fetch_image_bytes_ttl (env : Env) (url : str) (nt : Net) :
  let now := monotonic env (length (fetch_log nt)) in
  let out := fetch_image_bytes env url nt in
  (forall content stored,
      cache nt !! url = Some (content, stored) ->
      (now < stored + 3600)%Z ->
      fst out = Ok content
      /\ requests (snd out) = requests nt
      /\ cache (snd out) = cache nt)
  /\ ((cache nt !! url = None
       \/ exists content stored,
           cache nt !! url = Some (content, stored)
           /\ (stored + 3600 <= now)%Z) ->
      requests (snd out) = requests nt ++ [url]
      /\ (forall content,
            fst out = Ok content ->
            cache (snd out) !! url = Some (content, now))
      /\ (forall e, fst out = Raise e -> cache (snd out) = cache nt))
  /\ (forall content,
        fst out = Ok content ->
        requests (snd out) = requests nt ++ [url] ->
        forall others,
          (forall i j, (i <= j)%nat ->
             (monotonic env i <= monotonic env j)%Z) ->
          let nt2 := snd (fetch_all env others (snd out)) in
          (monotonic env (length (fetch_log nt2)) < now + 3600)%Z ->
          fst (fetch_image_bytes env url nt2) = Ok content
          /\ requests (snd (fetch_image_bytes env url nt2)) = requests nt2
          /\ count_requests url (requests nt2)
             = S (count_requests url (requests nt))).
Proof.
  intros now out.
  assert (Hhit : forall content stored,
             cache nt !! url = Some (content, stored) ->
             (now < stored + 3600)%Z ->
             fst out = Ok content
             /\ requests (snd out) = requests nt
             /\ cache (snd out) = cache nt).
  { intros content stored Hc Hfresh. subst out.
    rewrite (fetch_hit env url nt content stored Hc Hfresh). simpl. auto. }
  assert (Hmiss : (cache nt !! url = None
                   \/ exists content stored,
                       cache nt !! url = Some (content, stored)
                       /\ (stored + 3600 <= now)%Z) ->
                  requests (snd out) = requests nt ++ [url]
                  /\ (forall content,
                        fst out = Ok content ->
                        cache (snd out) !! url = Some (content, now))
                  /\ (forall e, fst out = Raise e ->
                        cache (snd out) = cache nt)).
  { intros Hold. subst out. rewrite (fetch_miss env url nt Hold).
    set (nt0 := {| cache := cache nt; requests := requests nt;
                   fetch_log := fetch_log nt ++ [url] |}).
    destruct (fetch_body_requests env url nt0) as (Hr & Hc & _).
    destruct (fetch_body env url nt0) as [[value|e] nt1]; simpl in *.
    - split; [exact Hr|]. split.
      + intros content [= <-]. apply lookup_insert_eq.
      + discriminate.
    - split; [exact Hr|]. split; [discriminate|]. intros _ _. exact Hc. }
  split; [exact Hhit|]. split; [exact Hmiss|].
  intros content Hok Hsent others Hmono nt2 Hwithin.
  assert (Hentry : cache (snd out) !! url = Some (content, now)).
  { destruct (cache nt !! url) as [[c0 stored]|] eqn:Hc.
    - destruct (Z.lt_ge_cases now (stored + 3600)) as [Hfresh|Hold].
      + destruct (Hhit c0 stored eq_refl Hfresh) as (_ & Hsame & _).
        rewrite Hsame in Hsent.
        apply (f_equal (@length str)) in Hsent.
        rewrite length_app in Hsent. simpl in Hsent. lia.
      + apply Hmiss; [|exact Hok]. right. eauto.
    - apply Hmiss; [|exact Hok]. left. reflexivity. }
  destruct (fetch_all_keeps_fresh env url content now others (snd out) Hentry)
    as (Hc2 & Hl2 & Hr2).
  { intros k Hk. eapply Z.le_lt_trans; [|exact Hwithin].
    apply Hmono. subst nt2.
    pose proof (fetch_effects env url nt) as [Hl _]. fold out in Hl.
    assert (Hlen : fetch_log (snd (fetch_all env others (snd out)))
                   = fetch_log (snd out) ++ others).
    { clear. generalize (snd out). induction others as [|u others IH];
        intros n0; simpl; [rewrite app_nil_r; reflexivity|].
      pose proof (fetch_effects env u n0) as [Hu _].
      destruct (fetch_image_bytes env u n0) as [r n1]. simpl in Hu.
      specialize (IH n1). destruct (fetch_all env others n1) as [rs n2].
      simpl in *. rewrite IH, Hu, <- app_assoc. reflexivity. }
    rewrite Hlen, length_app. lia. }
  fold nt2 in Hc2, Hl2, Hr2.
  rewrite (fetch_hit env url nt2 content now Hc2 Hwithin). simpl.
  split; [reflexivity|]. split; [reflexivity|].
  rewrite Hr2, Hsent. unfold count_requests.
  rewrite filter_app, length_app.
  rewrite filter_cons_True by reflexivity. simpl. lia.
Qed.

Lemma fetch_image_bytes_ttl_witness :
  let env := always_ok [137; 80; 78; 71] (fun _ => 0%Z)
               (fun k => (1000 * Z.of_nat k)%Z) in
  let out := fetch_image_bytes env (lit "u") empty_net in
  let nt2 := snd (fetch_all env [lit "v"; lit "u"] (snd out)) in
  fst out = Ok [137; 80; 78; 71]
  /\ requests (snd out) = [lit "u"]
  /\ fst (fetch_image_bytes env (lit "u") nt2) = Ok [137; 80; 78; 71]
  /\ requests (snd (fetch_image_bytes env (lit "u") nt2)) = requests nt2
  /\ count_requests (lit "u") (requests nt2) = 1%nat.
Proof.
  intros env out nt2.
  assert (H1 : fst out = Ok [137; 80; 78; 71]) by (vm_compute; reflexivity).
  assert (H2 : requests (snd out) = requests empty_net ++ [lit "u"])
    by (vm_compute; reflexivity).
  split; [exact H1|]. split; [exact H2|].
  destruct (fetch_image_bytes_ttl env (lit "u") empty_net) as (_ & _ & H).
  apply (H [137; 80; 78; 71] H1 H2 [lit "v"; lit "u"]).
  - intros i j Hij. simpl. lia.
  - vm_compute. reflexivity.
Defined.

End CacheClaim.

(** ** BatchGenerator *)

Section BatchGenerator.

Variable env : Env.
Variables (style final_prompt : str) (w h : Z).

Lemma fetch_all_log (urls : list str) (nt : Net) :
  length (fst (fetch_all env urls nt)) = length urls
  /\ fetch_log (snd (fetch_all env urls nt)) = fetch_log nt ++ urls.
Proof.
  revert nt. induction urls as [|u urls IH]; intros nt; simpl.
  - rewrite app_nil_r. auto.
  - pose proof (fetch_effects env u nt) as [Hu _].
    destruct (fetch_image_bytes env u nt) as [r nt1]. simpl in Hu.
    destruct (IH nt1) as [Hlen Hlog].
    destruct (fetch_all env urls nt1) as [rs nt2]. simpl in *.
    rewrite Hlen, Hlog, Hu, <- app_assoc. auto.
Qed.

(** Every URL gives either a file or a reported failure. *)
Lemma images_failures_length (idx : nat) (urls : list (str * option Z))
    (rs : list (result bytes)) :
  length rs = length urls ->
  (length (images_of style idx urls rs) + length (failures_of idx rs)
   = length urls)%nat.
Proof.
  revert idx rs. induction urls as [|[u s] urls IH]; intros idx rs Hlen.
  - destruct rs; [reflexivity|discriminate].
  - destruct rs as [|[b|e] rs]; [discriminate| |];
      injection Hlen as Hlen; simpl; specialize (IH (S idx) rs Hlen); lia.
Qed.

(** The second loop, read off the results of its fetches: the state of
    the cache and of the network is the one the fetches leave, in order;
    the files kept are those of the successes, the failures reported
    those of the failures, each under its index; a success adds one
    entry to the history and nothing touches the favorites. *)
Lemma download_loop_spec (urls : list (str * option Z)) (idx : nat)
    (images_downloaded : list (str * bytes)) (wd : World) :
  let res := download_loop env style final_prompt w h idx urls
               images_downloaded wd in
  let fa := fetch_all env (map fst urls) (net wd) in
  net (snd res) = snd fa
  /\ fst res = images_downloaded ++ images_of style idx urls (fst fa)
  /\ page (snd res) = page wd ++ failures_of idx (fst fa)
  /\ favorites (session (snd res)) = favorites (session wd)
  /\ length (history (session (snd res)))
     = (length (images_of style idx urls (fst fa))
        + length (history (session wd)))%nat.
Proof.
  revert idx images_downloaded wd.
  induction urls as [|[url s] urls IH]; intros idx images wd; simpl.
  - rewrite !app_nil_r. auto.
  - destruct (fetch_image_bytes env url (net wd)) as [[img|e] nt] eqn:Hf.
    + match goal with
      | |- context [download_loop _ _ _ _ _ _ _ ?i ?x] =>
          specialize (IH (S idx) i x)
      end.
      simpl in IH.
      destruct (fetch_all env (map fst urls) nt) as [rs nt2].
      simpl in *. destruct IH as (H1 & H2 & H3 & H4 & H5).
      rewrite H1, H2, H3, H4, H5, <- app_assoc. simpl.
      repeat split; try reflexivity. lia.
    + match goal with
      | |- context [download_loop _ _ _ _ _ _ _ ?i ?x] =>
          specialize (IH (S idx) i x)
      end.
      simpl in IH.
      destruct (fetch_all env (map fst urls) nt) as [rs nt2].
      simpl in *. destruct IH as (H1 & H2 & H3 & H4 & H5).
      rewrite H1, H2, H3, H4, H5, <- app_assoc. simpl.
      repeat split; reflexivity.
Qed.

End BatchGenerator.

Section BatchClaim.

(** A batch whose prompt can be encoded: the URLs of the first loop, one
    per variation and in order, handed to the second loop. *)
Lemma generate_batch_runs (env : Env) (style final_prompt : str) (w h : Z)
    (variations : Z) (seed_mode : SeedMode) (seed_value : option Z)
    (wd : World) :
  valid_text final_prompt = true ->
  exists urls,
    url_loop env final_prompt w h seed_mode seed_value
      (seq 0 (Z.to_nat variations)) [] = Ok urls
    /\ length urls = Z.to_nat variations
    /\ Forall2 (fun i us =>
                  snd us = variation_seed env seed_mode seed_value i
                  /\ pollinations_url final_prompt w h (snd us) = Ok (fst us))
         (seq 0 (Z.to_nat variations)) urls
    /\ generate_batch env style final_prompt w h variations seed_mode
         seed_value wd
       = Ok (download_loop env style final_prompt w h 1 urls [] wd)
    /\ fetch_log (net (snd (download_loop env style final_prompt w h 1 urls
                              [] wd)))
       = fetch_log (net wd) ++ map fst urls.
Proof.
  intros Hv.
  destruct (url_loop_spec env final_prompt w h seed_mode seed_value Hv
              (seq 0 (Z.to_nat variations)) []) as (urls & Hloop & Hall).
  simpl in Hloop. exists urls. split; [exact Hloop|]. split.
  { rewrite <- (Forall2_length _ _ _ Hall). apply length_seq. }
  split; [exact Hall|]. split.
  { unfold generate_batch. rewrite Hloop. reflexivity. }
  pose proof (download_loop_spec env style final_prompt w h urls 1 [] wd)
    as (H1 & _).
  simpl in H1. rewrite H1. apply fetch_all_log.
Qed.

(** C6.  For a final prompt that can be encoded, a batch of [n]
    variations builds [n] URLs, the [i]-th with the seed of variation
    [i], and calls [fetch_image_bytes] once for each, in the order of the
    variations; the call of a variation that
    fails is reported under the variation's index and the loop goes on
    with the next one; the number of files kept and the number of
    failures reported add up to [n]. *)
Theorem generate_batch_attempts (env : Env) (style final_prompt : str)
    (w h : Z) (variations : Z) (seed_mode : SeedMode)
    (seed_value : option Z) (wd : World) :
  valid_text final_prompt = true ->
  exists urls images wd',
    url_loop env final_prompt w h seed_mode seed_value
      (seq 0 (Z.to_nat variations)) [] = Ok urls
    /\ length urls = Z.to_nat variations
    /\ Forall2 (fun i us =>
                  snd us = variation_seed env seed_mode seed_value i
                  /\ pollinations_url final_prompt w h (snd us) = Ok (fst us))
         (seq 0 (Z.to_nat variations)) urls
    /\ generate_batch env style final_prompt w h variations seed_mode
         seed_value wd = Ok (images, wd')
    /\ net wd' = snd (fetch_all env (map fst urls) (net wd))
    /\ fetch_log (net wd') = fetch_log (net wd) ++ map fst urls
    /\ images
       = images_of style 1 urls (fst (fetch_all env (map fst urls) (net wd)))
    /\ page wd'
       = page wd
         ++ failures_of 1 (fst (fetch_all env (map fst urls) (net wd)))
    /\ (length images
        + length (failures_of 1
                    (fst (fetch_all env (map fst urls) (net wd))))
        = Z.to_nat variations)%nat.
Proof.
  intros Hv.
  destruct (generate_batch_runs env style final_prompt w h variations
              seed_mode seed_value wd Hv)
    as (urls & Hloop & Hlen & Hall & Hb & Hlog).
  pose proof (download_loop_spec env style final_prompt w h urls 1 [] wd)
    as (H1 & H2 & H3 & _ & _).
  destruct (download_loop env style final_prompt w h 1 urls [] wd)
    as [images wd'] eqn:Hd.
  simpl in H1, H2, H3, Hlog.
  destruct (fetch_all_log env (map fst urls) (net wd)) as [Hrs _].
  exists urls, images, wd'.
  repeat split; try assumption.
  rewrite <- Hlen, H2. apply images_failures_length.
  rewrite Hrs. apply length_map.
Qed.

End BatchClaim.

Section BatchRuns.

Lemma generate_batch_attempts_witness :
  valid_text (lit "Anime style, cat") = true
  /\ exists urls images wd',
      url_loop second_fails (lit "Anime style, cat") 1024 1024 Random None
        (seq 0 (Z.to_nat 3)) [] = Ok urls
      /\ length urls = Z.to_nat 3
      /\ Forall2 (fun i us =>
                    snd us = variation_seed second_fails Random None i
                    /\ pollinations_url (lit "Anime style, cat") 1024 1024
                         (snd us) = Ok (fst us))
           (seq 0 (Z.to_nat 3)) urls
      /\ generate_batch second_fails (lit "Anime") (lit "Anime style, cat")
           1024 1024 3 Random None empty_world = Ok (images, wd')
      /\ net wd' = snd (fetch_all second_fails (map fst urls) (net empty_world))
      /\ fetch_log (net wd') = fetch_log (net empty_world) ++ map fst urls
      /\ images
         = images_of (lit "Anime") 1 urls
             (fst (fetch_all second_fails (map fst urls) (net empty_world)))
      /\ page wd'
         = page empty_world
           ++ failures_of 1
                (fst (fetch_all second_fails (map fst urls) (net empty_world)))
      /\ (length images
          + length (failures_of 1
                      (fst (fetch_all second_fails (map fst urls)
                              (net empty_world))))
          = Z.to_nat 3)%nat.
Proof.
  split; [vm_compute; reflexivity|].
  apply (generate_batch_attempts second_fails (lit "Anime")
           (lit "Anime style, cat") 1024 1024 3 Random None empty_world).
  vm_compute. reflexivity.
Defined.

(** Three variations, the second request answered with a 500: two files
    (variations 1 and 3), one failure under index 2, three calls. *)
Example batch_second_fails :
  exists wd',
    generate_batch second_fails (lit "Anime") (lit "Anime style, cat")
      1024 1024 3 Random None empty_world
    = Ok ([(lit "ps333_anime_1_seed5000.png", [137; 80; 78; 71]);
           (lit "ps333_anime_3_seed5004.png", [137; 80; 78; 71])], wd')
    /\ page wd' = [st_error_fetch 2 (HTTPError 500)]
    /\ length (fetch_log (net wd')) = 3%nat
    /\ length (history (session wd')) = 2%nat.
Proof. eexists. repeat split; vm_compute; reflexivity. Qed.

(** In the fixed mode the variations share one URL: the first call asks
    the endpoint, the others are served from the cache. *)
Example batch_fixed_seed :
  exists images wd',
    generate_batch second_fails (lit "Realistic")
      (lit "Realistic style, a red fox in snow") 1024 1024 3 Fixed (Some 42%Z)
      empty_world
    = Ok (images, wd')
    /\ length images = 3%nat
    /\ length (fetch_log (net wd')) = 3%nat
    /\ length (requests (net wd')) = 1%nat
    /\ map Item.seed (history (session wd')) = [Some 42; Some 42; Some 42]%Z.
Proof. eexists. eexists. repeat split; vm_compute; reflexivity. Qed.

End BatchRuns.

(** ** SessionHistoryStore *)

Section SessionHistoryStore.

(** C7.  [insert_history r] puts [r] at position 0, makes the history
    one longer and leaves the favorites; [clear_history] leaves an empty
    history and the favorites as they were.  The clear button does the
    latter, and a downloaded picture is pushed by the former. *)
Theorem history_insert_clear (s : Session) (r : Item.t) :
  (history (insert_history r s) !! 0%nat = Some r
   /\ length (history (insert_history r s)) = S (length (history s))
   /\ favorites (insert_history r s) = favorites s)
  /\ (length (history (clear_history s)) = 0%nat
      /\ favorites (clear_history s) = favorites s)
  /\ (forall wd, session (on_clear wd) = clear_history (session wd))
  /\ (forall env style final_prompt w h idx url sd images wd img nt,
        fetch_image_bytes env url (net wd) = (Ok img, nt) ->
        session (snd (download_loop env style final_prompt w h idx
                        [(url, sd)] images wd))
        = insert_history
            {| Item.url := url;
               Item.prompt := final_prompt;
               Item.style := style;
               Item.w := w;
               Item.h := h;
               Item.seed := sd;
               Item.ts := local_now env (length (fetch_log nt)) |}
            (session wd)).
Proof.
  repeat split.
  intros env style final_prompt w h idx url sd images wd img nt Hf.
  simpl. rewrite Hf. reflexivity.
Qed.

(** The favorites are promoted entries only: a promotion leaves the
    history. *)
Lemma promote_keeps_history (s : Session) (item : Item.t) :
  history (promote_to_favorite item s) = history s
  /\ favorites (promote_to_favorite item s) = item :: favorites s.
Proof. split; reflexivity. Qed.

End SessionHistoryStore.

(** ** Validation of the prompt *)

Section Validation.








End Validation.

(* ===================================================================== *)
(** * Part III: further properties of the code                            *)
(* ===================================================================== *)

(** The same over the hypotheses, innermost terms first. *)
Ltac name_divmod_all :=
  repeat match goal with
    | H : context [N.div ?a ?b] |- _ =>
        lazymatch a with
        | context [N.div _ _] => fail
        | context [N.modulo _ _] => fail
        | _ => let q := fresh "q" in set (q := N.div a b) in *; clearbody q
        end
    | H : context [N.modulo ?a ?b] |- _ =>
        lazymatch a with
        | context [N.div _ _] => fail
        | context [N.modulo _ _] => fail
        | _ => let r := fresh "r" in set (r := N.modulo a b) in *; clearbody r
        end
    end.

(** ** White space at the ends of a string *)

Section StripFacts.

Lemma lstrip_nonspace (c : N) (t : str) :
  isspace c = false -> lstrip (c :: t) = c :: t.
Proof. simpl. intros ->. reflexivity. Qed.

Lemma lstrip_nil_iff (s : str) :
  lstrip s = [] <-> forallb isspace s = true.
Proof.
  induction s as [|c s IH]; simpl; [tauto|].
  destruct (isspace c); simpl; [exact IH|]. split; discriminate.
Qed.

Lemma rstrip_nil_iff (s : str) :
  rstrip s = [] <-> forallb isspace s = true.
Proof.
  induction s as [|c s IH]; simpl; [tauto|].
  destruct (rstrip s) as [|r rs].
  - destruct (isspace c); simpl.
    + split; [intros _; apply IH; reflexivity|reflexivity].
    + split; discriminate.
  - split; [discriminate|]. intros [_ H]%andb_prop.
    apply IH in H. discriminate.
Qed.

(** A string is blank once stripped exactly when it is made of white
    space. *)
Lemma strip_nil_iff (s : str) :
  strip s = [] <-> forallb isspace s = true.
Proof.
  unfold strip. rewrite rstrip_lstrip, lstrip_nil_iff.
  split.
  - intros H. apply rstrip_nil_iff.
    destruct (rstrip s) as [|r rs] eqn:Hr; [reflexivity|].
    exfalso. destruct rs as [|r' rs'] using rev_ind.
    + apply (rstrip_last s []) in Hr. simpl in H. rewrite Hr in H.
      discriminate.
    + rewrite app_comm_cons in Hr. apply rstrip_last in Hr.
      rewrite app_comm_cons, forallb_app in H.
      apply andb_prop in H as [_ H]. simpl in H. rewrite Hr in H.
      discriminate.
  - intros H. apply rstrip_nil_iff in H. rewrite H. reflexivity.
Qed.

Lemma rstrip_app_nonnil (a b : str) :
  rstrip b <> [] -> rstrip (a ++ b) = a ++ rstrip b.
Proof.
  intros Hb. induction a as [|x a IH]; [reflexivity|].
  simpl. rewrite IH. destruct (a ++ rstrip b) eqn:E; [|reflexivity].
  apply app_eq_nil in E as [_ E]. contradiction.
Qed.

Lemma rstrip_app_nil (a b : str) :
  rstrip b = [] -> rstrip (a ++ b) = rstrip a.
Proof.
  intros Hb. rewrite rstrip_app_rstrip, Hb, app_nil_r. reflexivity.
Qed.

Lemma lstrip_idem (s : str) : lstrip (lstrip s) = lstrip s.
Proof.
  induction s as [|c s IH]; [reflexivity|].
  simpl. destruct (isspace c) eqn:Hc; [exact IH|].
  simpl. rewrite Hc. reflexivity.
Qed.

Lemma rstrip_idem (s : str) : rstrip (rstrip s) = rstrip s.
Proof.
  induction s as [|c s IH]; [reflexivity|].
  simpl. destruct (rstrip s) as [|r rs] eqn:Hr.
  - destruct (isspace c) eqn:Hc; [reflexivity|].
    simpl. rewrite Hc. reflexivity.
  - change (rstrip (c :: r :: rs))
      with (match rstrip (r :: rs) with
            | [] => if isspace c then [] else [c]
            | x :: l => c :: x :: l
            end).
    rewrite IH. reflexivity.
Qed.

Lemma strip_idem (s : str) : strip (strip s) = strip s.
Proof.
  unfold strip. rewrite (rstrip_lstrip (rstrip (lstrip s))), rstrip_idem.
  rewrite <- rstrip_lstrip, lstrip_idem. reflexivity.
Qed.

Lemma lstrip_app_fixed (a b : str) :
  a <> [] -> lstrip a = a -> lstrip (a ++ b) = a ++ b.
Proof.
  destruct a as [|c a]; [congruence|]. intros _ Ha.
  apply lstrip_head in Ha. simpl. rewrite Ha. reflexivity.
Qed.

End StripFacts.

(** ** More on the composed prompt *)

Section PromptFacts.

Lemma base_not_blank (style prompt : str) :
  strip (style ++ lit " style, " ++ prompt) <> [].
Proof.
  intros H%strip_nil_iff. rewrite !forallb_app in H.
  apply andb_prop in H as [_ H]. apply andb_prop in H as [H _].
  discriminate H.
Qed.

(** X1.  The composed prompt is never empty and carries no white space
    at either end: stripping it again changes nothing. *)
Theorem build_prompt_stripped (style prompt negative : str) :
  build_prompt style prompt negative <> []
  /\ lstrip (build_prompt style prompt negative)
     = build_prompt style prompt negative
  /\ rstrip (build_prompt style prompt negative)
     = build_prompt style prompt negative
  /\ strip (build_prompt style prompt negative)
     = build_prompt style prompt negative.
Proof.
  unfold build_prompt.
  set (base := strip (style ++ lit " style, " ++ prompt)).
  assert (Hb : base <> []) by apply base_not_blank.
  assert (Hl : lstrip base = base).
  { unfold base, strip. rewrite rstrip_lstrip, lstrip_idem. reflexivity. }
  assert (Hr : rstrip base = base).
  { unfold base, strip. apply rstrip_idem. }
  destruct (strip negative) as [|c neg] eqn:Hneg; simpl truthy; cbv iota.
  - repeat split; try assumption. unfold strip. rewrite Hl. exact Hr.
  - assert (Hnr : rstrip (c :: neg) = c :: neg).
    { rewrite <- Hneg. unfold strip. apply rstrip_idem. }
    assert (Hout_l : lstrip (base ++ lit ". Negative prompt: " ++ c :: neg)
                     = base ++ lit ". Negative prompt: " ++ c :: neg).
    { apply lstrip_app_fixed; assumption. }
    assert (Hout_r : rstrip (base ++ lit ". Negative prompt: " ++ c :: neg)
                     = base ++ lit ". Negative prompt: " ++ c :: neg).
    { rewrite !app_assoc. rewrite rstrip_app_nonnil; rewrite Hnr;
        [reflexivity|discriminate]. }
    repeat split; try assumption.
    + destruct base; [congruence|discriminate].
    + unfold strip. rewrite Hout_l. exact Hout_r.
Qed.

(** X2.  For a style that begins with a character other than white
    space (the six styles of the selection box do), the composed prompt
    in closed form: the style, [" style,"], then a space and the user
    prompt without its trailing white space unless the prompt is blank,
    then the negative part unless the negative prompt is blank.  The
    leading white space of the user prompt is kept. *)
Theorem build_prompt_closed_form (c : N) (style' prompt negative : str) :
  isspace c = false ->
  build_prompt (c :: style') prompt negative
  = (c :: style') ++ lit " style,"
    ++ (if truthy (rstrip prompt) then lit " " ++ rstrip prompt else [])
    ++ (if truthy (strip negative)
        then lit ". Negative prompt: " ++ strip negative
        else []).
Proof.
  intros Hc. unfold build_prompt.
  assert (Hbase : strip ((c :: style') ++ lit " style, " ++ prompt)
                  = (c :: style') ++ lit " style,"
                    ++ (if truthy (rstrip prompt)
                        then lit " " ++ rstrip prompt else [])).
  { unfold strip.
    change ((c :: style') ++ lit " style, " ++ prompt)
      with (c :: (style' ++ lit " style, " ++ prompt)).
    rewrite (lstrip_nonspace c _ Hc).
    change (c :: (style' ++ lit " style, " ++ prompt))
      with ((c :: style') ++ lit " style, " ++ prompt).
    destruct (rstrip prompt) as [|r rs] eqn:Hp; simpl truthy; cbv iota.
    - rewrite app_assoc, (rstrip_app_nil _ prompt Hp).
      rewrite rstrip_app_nonnil by (vm_compute; discriminate).
      rewrite app_nil_r. reflexivity.
    - rewrite app_assoc, rstrip_app_nonnil by (rewrite Hp; discriminate).
      rewrite Hp, <- app_assoc. reflexivity. }
  rewrite Hbase.
  destruct (truthy (strip negative)).
  - rewrite <- !app_assoc. reflexivity.
  - rewrite app_nil_r. reflexivity.
Qed.

Lemma build_prompt_closed_form_witness :
  isspace 65 = false
  /\ build_prompt (lit "Anime") ([32; 9] ++ lit "cat " ++ [160]) (lit " ")
     = lit "Anime" ++ lit " style,"
       ++ (if truthy (rstrip ([32; 9] ++ lit "cat " ++ [160]))
           then lit " " ++ rstrip ([32; 9] ++ lit "cat " ++ [160]) else [])
       ++ (if truthy (strip (lit " "))
           then lit ". Negative prompt: " ++ strip (lit " ")
           else []).
Proof.
  split; [reflexivity|].
  apply (build_prompt_closed_form 65 (lit "nime")
           ([32; 9] ++ lit "cat " ++ [160]) (lit " ")).
  reflexivity.
Defined.

Example build_prompt_blank_prompt :
  build_prompt (lit "Anime") (lit "   ") (lit "blur")
  = lit "Anime style,. Negative prompt: blur".
Proof. vm_compute. reflexivity. Qed.

End PromptFacts.

(** ** The URL determines the request *)

Section UrlInjective.

Import Urllib.

Lemma hexdigit_inj (a b : N) :
  a < 16 -> b < 16 -> hexdigit a = hexdigit b -> a = b.
Proof.
  unfold hexdigit. intros Ha Hb.
  destruct (a <? 10) eqn:Ea; destruct (b <? 10) eqn:Eb;
    try apply N.ltb_lt in Ea; try apply N.ltb_ge in Ea;
    try apply N.ltb_lt in Eb; try apply N.ltb_ge in Eb; lia.
Qed.

Lemma percent_inj (b1 b2 : N) (x y : str) :
  b1 < 256 -> b2 < 256 ->
  percent b1 ++ x = percent b2 ++ y -> b1 = b2 /\ x = y.
Proof.
  intros H1 H2 Heq. unfold percent in Heq. simpl in Heq.
  injection Heq as Hhi Hlo Hxy.
  assert (b1 / 16 < 16) by (apply N.Div0.div_lt_upper_bound; lia).
  assert (b2 / 16 < 16) by (apply N.Div0.div_lt_upper_bound; lia).
  assert (b1 mod 16 < 16) by (apply N.mod_lt; lia).
  assert (b2 mod 16 < 16) by (apply N.mod_lt; lia).
  apply hexdigit_inj in Hhi; [|assumption..].
  apply hexdigit_inj in Hlo; [|assumption..].
  split; [|exact Hxy].
  rewrite (N.div_mod b1 16), (N.div_mod b2 16) by lia.
  rewrite Hhi, Hlo. reflexivity.
Qed.

Lemma flat_map_percent_inj (bs1 bs2 : bytes) (x y : str) :
  Forall (fun b => b < 256) bs1 -> Forall (fun b => b < 256) bs2 ->
  length bs1 = length bs2 ->
  flat_map percent bs1 ++ x = flat_map percent bs2 ++ y ->
  bs1 = bs2 /\ x = y.
Proof.
  intros H1. revert bs2. induction H1 as [|b1 bs1 Hb1 _ IH];
    intros [|b2 bs2] H2 Hlen Heq; try discriminate Hlen.
  - simpl in Heq. auto.
  - inversion H2 as [|? ? Hb2 H2']; subst.
    change (flat_map percent (b1 :: bs1))
      with (percent b1 ++ flat_map percent bs1) in Heq.
    change (flat_map percent (b2 :: bs2))
      with (percent b2 ++ flat_map percent bs2) in Heq.
    rewrite <- !app_assoc in Heq.
    apply percent_inj in Heq as [-> Heq]; [|assumption..].
    injection Hlen as Hlen.
    destruct (IH bs2 H2' Hlen Heq) as [-> ->]. auto.
Qed.

(** The number of bytes of a character, and where the character lies. *)
Lemma utf8_encode_char_length (c : N) (bs : bytes) :
  utf8_encode_char c = Some bs ->
  (length bs = 1%nat /\ c < 128)
  \/ (length bs = 2%nat /\ 128 <= c < 2048)
  \/ (length bs = 3%nat /\ 2048 <= c < 65536)
  \/ (length bs = 4%nat /\ 65536 <= c < 1114112).
Proof.
  unfold utf8_encode_char.
  destruct (c <? 128) eqn:E1.
  { apply N.ltb_lt in E1. intros [= <-]. left. auto. }
  apply N.ltb_ge in E1.
  destruct (c <? 2048) eqn:E2.
  { apply N.ltb_lt in E2. intros [= <-]. right. left. auto. }
  apply N.ltb_ge in E2.
  destruct (c <? 65536) eqn:E3.
  { apply N.ltb_lt in E3.
    destruct ((55296 <=? c) && (c <=? 57343)); [discriminate|].
    intros [= <-]. right. right. left. auto. }
  apply N.ltb_ge in E3.
  destruct (c <? 1114112) eqn:E4; [|discriminate].
  apply N.ltb_lt in E4. intros [= <-]. right. right. right. auto.
Qed.

(** The first byte tells how many follow. *)
Lemma utf8_encode_char_tail (c b : N) (t : bytes) :
  utf8_encode_char c = Some (b :: t) ->
  length t = if b <? 128 then 0%nat
             else if b <? 224 then 1%nat
             else if b <? 240 then 2%nat else 3%nat.
Proof.
  unfold utf8_encode_char.
  destruct (c <? 128) eqn:E1.
  { intros [= <- <-]. rewrite E1. reflexivity. }
  apply N.ltb_ge in E1.
  destruct (c <? 2048) eqn:E2.
  { apply N.ltb_lt in E2. intros [= <- <-].
    assert (c / 64 < 32) by (apply N.Div0.div_lt_upper_bound; lia).
    set (q := c / 64) in *. clearbody q.
    replace (192 + q <? 128) with false by (symmetry; apply N.ltb_ge; lia).
    replace (192 + q <? 224) with true by (symmetry; apply N.ltb_lt; lia).
    reflexivity. }
  apply N.ltb_ge in E2.
  destruct (c <? 65536) eqn:E3.
  { apply N.ltb_lt in E3.
    destruct ((55296 <=? c) && (c <=? 57343)); [discriminate|].
    intros [= <- <-].
    assert (c / 4096 < 16) by (apply N.Div0.div_lt_upper_bound; lia).
    set (q := c / 4096) in *. clearbody q.
    replace (224 + q <? 128) with false by (symmetry; apply N.ltb_ge; lia).
    replace (224 + q <? 224) with false by (symmetry; apply N.ltb_ge; lia).
    replace (224 + q <? 240) with true by (symmetry; apply N.ltb_lt; lia).
    reflexivity. }
  apply N.ltb_ge in E3.
  destruct (c <? 1114112) eqn:E4; [|discriminate].
  intros [= <- <-].
  set (q := c / 262144) in *. clearbody q.
  replace (240 + q <? 128) with false by (symmetry; apply N.ltb_ge; lia).
  replace (240 + q <? 224) with false by (symmetry; apply N.ltb_ge; lia).
  replace (240 + q <? 240) with false by (symmetry; apply N.ltb_ge; lia).
  reflexivity.
Qed.

Lemma utf8_encode_char_inj (c1 c2 : N) (bs : bytes) :
  utf8_encode_char c1 = Some bs -> utf8_encode_char c2 = Some bs ->
  c1 = c2.
Proof.
  intros H1 H2.
  pose proof (utf8_encode_char_length c1 bs H1) as L1.
  pose proof (utf8_encode_char_length c2 bs H2) as L2.
  assert (Hcase : (c1 < 128 /\ c2 < 128)
                  \/ (128 <= c1 < 2048 /\ 128 <= c2 < 2048)
                  \/ (2048 <= c1 < 65536 /\ 2048 <= c2 < 65536)
                  \/ (65536 <= c1 < 1114112 /\ 65536 <= c2 < 1114112))
    by lia.
  clear L1 L2. unfold utf8_encode_char in H1, H2.
  pose proof (N.div_mod c1 64 ltac:(lia)) as D1.
  pose proof (N.div_mod c2 64 ltac:(lia)) as D2.
  pose proof (N.div_mod (c1 / 64) 64 ltac:(lia)) as D1'.
  pose proof (N.div_mod (c2 / 64) 64 ltac:(lia)) as D2'.
  pose proof (N.div_mod (c1 / 64 / 64) 64 ltac:(lia)) as D1''.
  pose proof (N.div_mod (c2 / 64 / 64) 64 ltac:(lia)) as D2''.
  change 4096 with (64 * 64) in H1, H2.
  change 262144 with (64 * 64 * 64) in H1, H2.
  rewrite <- !N.Div0.div_div in H1, H2.
  destruct Hcase as [[A B]|[[A B]|[[A B]|[A B]]]].
  - replace (c1 <? 128) with true in H1 by (symmetry; apply N.ltb_lt; lia).
    replace (c2 <? 128) with true in H2 by (symmetry; apply N.ltb_lt; lia).
    congruence.
  - replace (c1 <? 128) with false in H1 by (symmetry; apply N.ltb_ge; lia).
    replace (c2 <? 128) with false in H2 by (symmetry; apply N.ltb_ge; lia).
    replace (c1 <? 2048) with true in H1 by (symmetry; apply N.ltb_lt; lia).
    replace (c2 <? 2048) with true in H2 by (symmetry; apply N.ltb_lt; lia).
    rewrite <- H2 in H1. injection H1 as Ha Hb.
    name_divmod_all. lia.
  - replace (c1 <? 128) with false in H1 by (symmetry; apply N.ltb_ge; lia).
    replace (c2 <? 128) with false in H2 by (symmetry; apply N.ltb_ge; lia).
    replace (c1 <? 2048) with false in H1 by (symmetry; apply N.ltb_ge; lia).
    replace (c2 <? 2048) with false in H2 by (symmetry; apply N.ltb_ge; lia).
    replace (c1 <? 65536) with true in H1 by (symmetry; apply N.ltb_lt; lia).
    replace (c2 <? 65536) with true in H2 by (symmetry; apply N.ltb_lt; lia).
    destruct ((55296 <=? c1) && (c1 <=? 57343)); [discriminate|].
    destruct ((55296 <=? c2) && (c2 <=? 57343)); [discriminate|].
    rewrite <- H2 in H1. injection H1 as Ha Hb Hc.
    name_divmod_all. lia.
  - replace (c1 <? 128) with false in H1 by (symmetry; apply N.ltb_ge; lia).
    replace (c2 <? 128) with false in H2 by (symmetry; apply N.ltb_ge; lia).
    replace (c1 <? 2048) with false in H1 by (symmetry; apply N.ltb_ge; lia).
    replace (c2 <? 2048) with false in H2 by (symmetry; apply N.ltb_ge; lia).
    replace (c1 <? 65536) with false in H1 by (symmetry; apply N.ltb_ge; lia).
    replace (c2 <? 65536) with false in H2 by (symmetry; apply N.ltb_ge; lia).
    replace (c1 <? 1114112) with true in H1 by (symmetry; apply N.ltb_lt; lia).
    replace (c2 <? 1114112) with true in H2 by (symmetry; apply N.ltb_lt; lia).
    rewrite <- H2 in H1. injection H1 as Ha Hb Hc Hd.
    name_divmod_all. lia.
Qed.

Lemma utf8_encode_char_nonnil (c : N) : utf8_encode_char c <> Some [].
Proof.
  intros H. apply utf8_encode_char_length in H. simpl in H. lia.
Qed.

Lemma quote_char_head (c : N) :
  is_scalar c = true ->
  exists t, quote_char c = (if kept_verbatim c then c else 37) :: t.
Proof.
  intros Hc. unfold quote_char, percent_encoded.
  destruct (kept_verbatim c); [eauto|].
  destruct (utf8_encode_char_scalar c Hc) as [[|b bs] Hbs].
  - exfalso. exact (utf8_encode_char_nonnil c Hbs).
  - rewrite Hbs. simpl. eauto.
Qed.

(** No quoted character is a prefix of what another one starts. *)
Lemma quote_char_inj (c1 c2 : N) (x y : str) :
  is_scalar c1 = true -> is_scalar c2 = true ->
  quote_char c1 ++ x = quote_char c2 ++ y -> c1 = c2 /\ x = y.
Proof.
  intros V1 V2 Heq.
  destruct (quote_char_head c1 V1) as [t1 E1].
  destruct (quote_char_head c2 V2) as [t2 E2].
  destruct (kept_verbatim c1) eqn:K1; destruct (kept_verbatim c2) eqn:K2.
  - unfold quote_char in Heq. rewrite K1, K2 in Heq.
    injection Heq as -> ->. auto.
  - rewrite E1, E2 in Heq. injection Heq as -> _. discriminate K1.
  - rewrite E1, E2 in Heq. injection Heq as <- _. discriminate K2.
  - clear E1 E2 t1 t2. unfold quote_char, percent_encoded in Heq.
    rewrite K1, K2 in Heq.
    destruct (utf8_encode_char_scalar c1 V1) as [bs1 B1].
    destruct (utf8_encode_char_scalar c2 V2) as [bs2 B2].
    rewrite B1, B2 in Heq.
    pose proof (utf8_encode_char_bytes c1 bs1 B1) as F1.
    pose proof (utf8_encode_char_bytes c2 bs2 B2) as F2.
    destruct bs1 as [|b1 t1]; [exfalso; exact (utf8_encode_char_nonnil c1 B1)|].
    destruct bs2 as [|b2 t2]; [exfalso; exact (utf8_encode_char_nonnil c2 B2)|].
    assert (Hb : b1 = b2).
    { change (flat_map percent (b1 :: t1))
        with (percent b1 ++ flat_map percent t1) in Heq.
      change (flat_map percent (b2 :: t2))
        with (percent b2 ++ flat_map percent t2) in Heq.
      rewrite <- !app_assoc in Heq.
      inversion F1; inversion F2; subst.
      apply percent_inj in Heq as [Hb _]; assumption. }
    subst b2.
    assert (Hlen : length (b1 :: t1) = length (b1 :: t2)).
    { simpl. rewrite (utf8_encode_char_tail c1 b1 t1 B1).
      rewrite (utf8_encode_char_tail c2 b1 t2 B2). reflexivity. }
    destruct (flat_map_percent_inj _ _ _ _ F1 F2 Hlen Heq) as [Hbs Hxy].
    split; [|exact Hxy].
    rewrite <- Hbs in B2. exact (utf8_encode_char_inj c1 c2 _ B1 B2).
Qed.

Lemma quote_chars_inj (s1 s2 : str) :
  valid_text s1 = true -> valid_text s2 = true ->
  flat_map quote_char s1 = flat_map quote_char s2 -> s1 = s2.
Proof.
  revert s2. induction s1 as [|c1 s1 IH]; intros [|c2 s2] V1 V2 Heq.
  - reflexivity.
  - simpl in V2. apply andb_prop in V2 as [V2 _].
    destruct (quote_char_head c2 V2) as [t E].
    change (flat_map quote_char (c2 :: s2))
      with (quote_char c2 ++ flat_map quote_char s2) in Heq.
    rewrite E in Heq. discriminate Heq.
  - simpl in V1. apply andb_prop in V1 as [V1 _].
    destruct (quote_char_head c1 V1) as [t E].
    change (flat_map quote_char (c1 :: s1))
      with (quote_char c1 ++ flat_map quote_char s1) in Heq.
    rewrite E in Heq. discriminate Heq.
  - simpl in V1, V2.
    apply andb_prop in V1 as [V1 V1']. apply andb_prop in V2 as [V2 V2'].
    change (flat_map quote_char (c1 :: s1))
      with (quote_char c1 ++ flat_map quote_char s1) in Heq.
    change (flat_map quote_char (c2 :: s2))
      with (quote_char c2 ++ flat_map quote_char s2) in Heq.
    apply quote_char_inj in Heq as [-> Heq]; [|assumption..].
    rewrite (IH s2 V1' V2' Heq). reflexivity.
Qed.

Lemma quote_chars_alphabet (s : str) :
  Forall (fun c => url_path_char c = true) (flat_map quote_char s).
Proof.
  induction s as [|c s IH]; [constructor|].
  change (flat_map quote_char (c :: s))
    with (quote_char c ++ flat_map quote_char s).
  apply Forall_app. split; [apply quote_char_alphabet|exact IH].
Qed.

Lemma lit_inj (s1 s2 : string) : lit s1 = lit s2 -> s1 = s2.
Proof.
  unfold lit. revert s2. induction s1 as [|a s1 IH]; intros [|b s2] H;
    try discriminate H; [reflexivity|].
  simpl in H. injection H as Hab H.
  rewrite (IH s2 H). f_equal.
  rewrite <- (ascii_N_embedding a), <- (ascii_N_embedding b), Hab.
  reflexivity.
Qed.

Lemma str_of_int_inj (n m : Z) : str_of_int n = str_of_int m -> n = m.
Proof.
  unfold str_of_int. intros H%lit_inj.
  apply DecimalZ.to_int_inj.
  assert (Hnn : forall z, Z.to_int z <> Decimal.Pos Decimal.Nil
                          /\ Z.to_int z <> Decimal.Neg Decimal.Nil).
  { intros [|q|q]; simpl; split; try discriminate;
      intros [= Hq]; exact (DecimalPos.Unsigned.to_uint_nonnil q Hq). }
  apply (f_equal NilZero.int_of_string) in H.
  rewrite !NilZero.isi in H by apply Hnn.
  injection H as H. exact H.
Qed.

Lemma Ok_inj {A : Type} (a b : A) : Ok a = Ok b -> a = b.
Proof. congruence. Qed.

(** What precedes the first separator of a string is determined by it. *)
Lemma before_first_sep (x : N) (a a' b b' : str) :
  a ++ x :: b = a' ++ x :: b' -> ~ In x a -> ~ In x a' ->
  a = a' /\ b = b'.
Proof.
  revert a'. induction a as [|y a IH]; intros [|y' a'] Heq Ha Ha'.
  - injection Heq as Heq. auto.
  - injection Heq as Hy _. exfalso. apply Ha'. left. auto.
  - injection Heq as Hy _. exfalso. apply Ha. left. auto.
  - injection Heq as -> Heq.
    destruct (IH a' Heq) as [-> ->].
    + intros H. apply Ha. right. exact H.
    + intros H. apply Ha'. right. exact H.
    + auto.
Qed.

Lemma url_determines_request (p1 p2 : str) (w1 w2 h1 h2 : Z)
    (s1 s2 : option Z) (url : str) :
  pollinations_url p1 w1 h1 s1 = Ok url ->
  pollinations_url p2 w2 h2 s2 = Ok url ->
  p1 = p2 /\ w1 = w2 /\ h1 = h2 /\ s1 = s2.
Proof.
  intros U1 U2.
  assert (V1 : valid_text p1 = true).
  { destruct (valid_text p1) eqn:V; [reflexivity|].
    rewrite (pollinations_url_raises p1 w1 h1 s1 V) in U1. discriminate. }
  assert (V2 : valid_text p2 = true).
  { destruct (valid_text p2) eqn:V; [reflexivity|].
    rewrite (pollinations_url_raises p2 w2 h2 s2 V) in U2. discriminate. }
  rewrite (pollinations_url_ok p1 w1 h1 s1 V1) in U1.
  rewrite (pollinations_url_ok p2 w2 h2 s2 V2) in U2.
  rewrite <- U2 in U1. apply Ok_inj in U1. rename U1 into Heq. clear U2.
  apply app_inv_head in Heq.
  change (lit "?width=") with (63 :: lit "width=") in Heq.
  assert (Hq : forall p, ~ In 63 (flat_map quote_char p)).
  { intros p Hin. pose proof (quote_chars_alphabet p) as Hall.
    rewrite List.Forall_forall in Hall. specialize (Hall 63 Hin).
    discriminate Hall. }
  rewrite <- app_comm_cons in Heq.
  apply before_first_sep in Heq as [Hp Heq]; [|apply Hq..].
  apply quote_chars_inj in Hp; [|assumption..].
  apply app_inv_head in Heq.
  change (lit "&height=") with (38 :: lit "height=") in Heq.
  rewrite <- app_comm_cons in Heq.
  apply before_first_sep in Heq as [Hw Heq]; [|apply str_of_int_no_amp..].
  apply str_of_int_inj in Hw.
  apply app_inv_head in Heq.
  assert (Hh : h1 = h2 /\ s1 = s2).
  { destruct s1 as [z1|]; destruct s2 as [z2|].
    - change (lit "&seed=") with (38 :: lit "seed=") in Heq.
      rewrite <- app_comm_cons in Heq.
      apply before_first_sep in Heq as [Hh Hs]; [|apply str_of_int_no_amp..].
      apply app_inv_head in Hs.
      apply str_of_int_inj in Hh, Hs. subst. auto.
    - exfalso. rewrite app_nil_r in Heq.
      apply (str_of_int_no_amp h2). rewrite <- Heq.
      apply in_or_app. right. left. reflexivity.
    - exfalso. rewrite app_nil_r in Heq.
      apply (str_of_int_no_amp h1). rewrite Heq.
      apply in_or_app. right. left. reflexivity.
    - rewrite !app_nil_r in Heq. apply str_of_int_inj in Heq. auto. }
  destruct Hh as [Hh Hs]. auto.
Qed.

(** X3.  The URL determines the request: two calls of
    [pollinations_url] that return the same URL were given the same
    prompt, width, height and seed.  The cache, keyed by the URL, never
    takes one request for another. *)
Theorem pollinations_url_inj (p1 p2 : str) (w1 w2 h1 h2 : Z)
    (s1 s2 : option Z) (url : str) :
  pollinations_url p1 w1 h1 s1 = Ok url ->
  pollinations_url p2 w2 h2 s2 = Ok url ->
  p1 = p2 /\ w1 = w2 /\ h1 = h2 /\ s1 = s2.
Proof. apply url_determines_request. Qed.

Lemma pollinations_url_inj_witness :
  pollinations_url (lit "a cat") 1024 768 (Some 7%Z)
  = Ok (lit "https://image.pollinations.ai/prompt/a%20cat?width=1024&height=768&seed=7")
  /\ (lit "a cat" = lit "a cat" /\ 1024%Z = 1024%Z /\ 768%Z = 768%Z
      /\ Some 7%Z = Some 7%Z).
Proof.
  assert (H : pollinations_url (lit "a cat") 1024 768 (Some 7%Z)
              = Ok (lit "https://image.pollinations.ai/prompt/a%20cat?width=1024&height=768&seed=7"))
    by (vm_compute; reflexivity).
  split; [exact H|].
  exact (pollinations_url_inj _ _ _ _ _ _ _ _ _ H H).
Defined.

(** A slash in the prompt is not encoded, yet no other prompt gives the
    same path. *)
Example slash_prompts_differ :
  pollinations_url (lit "cat/dog") 512 512 None
  = Ok (lit "https://image.pollinations.ai/prompt/cat/dog?width=512&height=512")
  /\ pollinations_url (lit "cat%2Fdog") 512 512 None
     = Ok (lit "https://image.pollinations.ai/prompt/cat%252Fdog?width=512&height=512").
Proof. split; vm_compute; reflexivity. Qed.

End UrlInjective.

(** ** What the generate handler does with a prompt *)

Section HandlerOutcome.

Variable env : Env.
Variables (prompt negative style : str) (w h : Z) (variations : Z).
Variables (seed_mode : SeedMode) (seed_value : option Z).
Variable wd : World.

Lemma url_loop_raises (final_prompt : str) (i : nat) (rest : list nat)
    (urls : list (str * option Z)) :
  valid_text final_prompt = false ->
  url_loop env final_prompt w h seed_mode seed_value (i :: rest) urls
  = Raise UnicodeEncodeError.
Proof.
  intros Hv. simpl. rewrite (pollinations_url_raises _ _ _ _ Hv).
  reflexivity.
Qed.

Lemma failures_of_errors (idx : nat) (rs : list (result bytes)) :
  Forall (fun x => exists i e, x = st_error_fetch i e) (failures_of idx rs).
Proof.
  revert idx. induction rs as [|[b|e] rs IH]; intros idx; simpl.
  - constructor.
  - apply IH.
  - constructor; [eauto|apply IH].
Qed.

(** The outcome of the handler on a prompt that is not blank, when the
    first loop returns. *)
Lemma on_generate_proceeds (urls : list (str * option Z)) :
  strip prompt <> [] ->
  url_loop env (build_prompt style prompt negative) w h seed_mode seed_value
    (seq 0 (Z.to_nat variations)) [] = Ok urls ->
  exists wd',
    on_generate env prompt negative style w h variations seed_mode
      seed_value wd = Ok wd'
    /\ exists tail,
        page wd'
        = page wd
          ++ failures_of 1
               (fst (fetch_all env (map fst urls) (net wd)))
          ++ tail
        /\ (tail = [] \/ exists m f, tail = [st_success m; st_results f]).
Proof.
  intros Hnb Hloop. unfold on_generate, generate_batch.
  apply truthy_true in Hnb. rewrite Hnb, Hloop. simpl negb. cbv iota.
  pose proof (download_loop_spec env style
                (build_prompt style prompt negative) w h urls 1 [] wd)
    as (_ & _ & Hp & _).
  destruct (download_loop env style (build_prompt style prompt negative)
              w h 1 urls [] wd) as [images wd1].
  simpl in Hp. destruct (truthy_list images).
  - eexists. split; [reflexivity|]. eexists. split.
    + simpl. rewrite Hp, <- !app_assoc. reflexivity.
    + right. eauto.
  - eexists. split; [reflexivity|]. exists []. split; [|left; reflexivity].
    rewrite app_nil_r. exact Hp.
Qed.

(** X4.  The handler turns a prompt down exactly when every character
    of it is white space, in the sense of [str.strip] (the no-break
    space and the other Unicode spaces included). *)
Theorem on_generate_warns_iff :
  on_generate env prompt negative style w h variations seed_mode seed_value
    wd
  = Ok (emit (st_warning (lit "Please enter a valid prompt.")) wd)
  <-> forallb isspace prompt = true.
Proof.
  rewrite <- strip_nil_iff. split.
  - intros Hres. destruct (strip prompt) as [|c s] eqn:Hs; [reflexivity|].
    exfalso.
    destruct (url_loop env (build_prompt style prompt negative) w h
                seed_mode seed_value (seq 0 (Z.to_nat variations)) [])
      as [urls|e] eqn:Hloop.
    + destruct (on_generate_proceeds urls) as (wd' & Hok & tail & Hp & Ht);
        [rewrite Hs; discriminate|exact Hloop|].
      rewrite Hok in Hres. apply Ok_inj in Hres. subst wd'.
      simpl in Hp. apply app_inv_head in Hp.
      pose proof (failures_of_errors 1
                    (fst (fetch_all env (map fst urls) (net wd)))) as HF.
      destruct (failures_of 1 (fst (fetch_all env (map fst urls) (net wd))))
        as [|x F].
      * destruct Ht as [->|(m & f & ->)]; discriminate Hp.
      * inversion HF as [|? ? (i & e & Hx) _]. subst x.
        rewrite <- app_comm_cons in Hp. discriminate Hp.
    + unfold on_generate, generate_batch in Hres.
      rewrite Hs, Hloop in Hres. discriminate Hres.
  - intros Hs. unfold on_generate. rewrite Hs. reflexivity.
Qed.


End HandlerOutcome.

Section HandlerRuns.

(** A lone surrogate in the prompt ends the run before anything is
    fetched; with no variation asked for it goes unnoticed. *)
Example on_generate_surrogate :
  on_generate second_fails (lit "cat " ++ [55296]) [] (lit "Anime")
    1024 1024 4 Random None empty_world = Raise UnicodeEncodeError
  /\ on_generate second_fails (lit "cat " ++ [55296]) [] (lit "Anime")
       1024 1024 0 Random None empty_world = Ok empty_world.
Proof. split; vm_compute; reflexivity. Qed.

(** A no-break space is white space: such a prompt is turned down. *)
Example on_generate_nbsp :
  on_generate second_fails [160; 8195] [] (lit "Anime") 1024 1024 4 Random
    None empty_world
  = Ok (emit (st_warning (lit "Please enter a valid prompt.")) empty_world).
Proof. vm_compute. reflexivity. Qed.

End HandlerRuns.

(** ** What the fetcher does to the network and to the cache *)

Section FetcherFacts.

Variable env : Env.

Lemma served_by_mono (sent more : list str) (url : str) (content : bytes) :
  served_by env sent url content -> served_by env (sent ++ more) url content.
Proof.
  intros (k & code & Hk & Hget & Hst). exists k, code.
  split; [|auto]. apply lookup_app_l_Some. exact Hk.
Qed.

(** The three ways a call can go. *)
Lemma fetch_cases (url : str) (nt : Net) :
  let now := monotonic env (length (fetch_log nt)) in
  let k := length (requests nt) in
  (exists content stored,
      cache nt !! url = Some (content, stored)
      /\ (now < stored + 3600)%Z
      /\ fetch_image_bytes env url nt
         = (Ok content, {| cache := cache nt;
                           requests := requests nt;
                           fetch_log := fetch_log nt ++ [url] |}))
  \/ (exists status_code content,
        http_get env k url = Response status_code content
        /\ raise_for_status status_code = false
        /\ fetch_image_bytes env url nt
           = (Ok content, {| cache := <[url := (content, now)]> (cache nt);
                             requests := requests nt ++ [url];
                             fetch_log := fetch_log nt ++ [url] |}))
  \/ (exists e,
        (cache nt !! url = None
         \/ exists content stored,
             cache nt !! url = Some (content, stored)
             /\ (stored + 3600 <= now)%Z)
        /\ fetch_image_bytes env url nt
           = (Raise e, {| cache := cache nt;
                          requests := requests nt ++ [url];
                          fetch_log := fetch_log nt ++ [url] |})).
Proof.
  intros now k.
  assert (Hmiss : (cache nt !! url = None
                   \/ exists content stored,
                       cache nt !! url = Some (content, stored)
                       /\ (stored + 3600 <= now)%Z) ->
                  (exists status_code content,
                      http_get env k url = Response status_code content
                      /\ raise_for_status status_code = false
                      /\ fetch_image_bytes env url nt
                         = (Ok content,
                            {| cache := <[url := (content, now)]> (cache nt);
                               requests := requests nt ++ [url];
                               fetch_log := fetch_log nt ++ [url] |}))
                  \/ (exists e,
                        fetch_image_bytes env url nt
                        = (Raise e, {| cache := cache nt;
                                       requests := requests nt ++ [url];
                                       fetch_log := fetch_log nt ++ [url] |}))).
  { intros Hold. rewrite (fetch_miss env url nt Hold).
    unfold fetch_body. simpl. fold k.
    destruct (http_get env k url) as [reason|code content].
    - right. eauto.
    - destruct (raise_for_status code) eqn:Hst.
      + right. eauto.
      + left. exists code, content. auto. }
  assert (Hlk : cache nt !! url = None
                \/ exists content stored,
                    cache nt !! url = Some (content, stored)).
  { destruct (cache nt !! url) as [[content stored]|]; eauto. }
  destruct Hlk as [Hc|(content & stored & Hc)].
  - right. destruct (Hmiss (or_introl Hc)) as [H|[e H]]; [left; exact H|].
    right. exists e. split; [left; exact Hc|exact H].
  - destruct (Z.lt_ge_cases now (stored + 3600)) as [Hfresh|Hold].
    + left. exists content, stored.
      split; [exact Hc|]. split; [exact Hfresh|].
      exact (fetch_hit env url nt content stored Hc Hfresh).
    + assert (Hstale : cache nt !! url = None
                       \/ exists content0 stored0,
                           cache nt !! url = Some (content0, stored0)
                           /\ (stored0 + 3600 <= now)%Z).
      { right. exists content, stored. auto. }
      right. destruct (Hmiss Hstale) as [H|[e H]]; [left; exact H|].
      right. exists e. split; [exact Hstale|exact H].
Qed.

(** One call: the cache stays an image of the endpoint, and what the
    call returns was served for its URL. *)
Lemma fetch_sound (url : str) (nt : Net) :
  cache_sound env nt ->
  cache_sound env (snd (fetch_image_bytes env url nt))
  /\ (forall content,
        fst (fetch_image_bytes env url nt) = Ok content ->
        served_by env (requests (snd (fetch_image_bytes env url nt)))
          url content).
Proof.
  intros Hs.
  destruct (fetch_cases url nt)
    as [(c & t & Hc & _ & ->)|[(code & c & Hget & Hst & ->)|(e & _ & ->)]];
    simpl.
  - split; [exact Hs|]. intros c' [= <-]. exact (Hs url c t Hc).
  - assert (Hnew : served_by env (requests nt ++ [url]) url c).
    { exists (length (requests nt)), code. split; [|auto].
      rewrite lookup_app_r by lia. rewrite Nat.sub_diag. reflexivity. }
    split.
    + intros u c' t'. simpl.
      destruct (decide (url = u)) as [->|Hne].
      * rewrite lookup_insert_eq. intros [= <- _]. exact Hnew.
      * rewrite lookup_insert_ne by exact Hne. intros Hu.
        apply served_by_mono. exact (Hs u c' t' Hu).
    + intros c' [= <-]. exact Hnew.
  - split; [|discriminate]. intros u c' t' Hu. simpl in *.
    apply served_by_mono. exact (Hs u c' t' Hu).
Qed.

Lemma fetch_requests_grow (url : str) (nt : Net) :
  exists sent,
    requests (snd (fetch_image_bytes env url nt)) = requests nt ++ sent
    /\ sublist sent [url].
Proof.
  destruct (fetch_effects env url nt) as [_ [H|H]]; rewrite H.
  - exists []. rewrite app_nil_r. split; [reflexivity|].
    apply sublist_nil_l.
  - exists [url]. split; reflexivity.
Qed.

Lemma fetch_all_requests_grow (urls : list str) (nt : Net) :
  exists sent,
    requests (snd (fetch_all env urls nt)) = requests nt ++ sent
    /\ sublist sent urls.
Proof.
  revert nt. induction urls as [|u urls IH]; intros nt; simpl.
  - exists []. rewrite app_nil_r. split; reflexivity.
  - destruct (fetch_requests_grow u nt) as (s1 & H1 & S1).
    destruct (fetch_image_bytes env u nt) as [r nt1]. simpl in H1.
    destruct (IH nt1) as (s2 & H2 & S2).
    destruct (fetch_all env urls nt1) as [rs nt2]. simpl in *.
    exists (s1 ++ s2). split.
    + rewrite H2, H1, <- app_assoc. reflexivity.
    + change (u :: urls) with ([u] ++ urls). apply sublist_app; assumption.
Qed.

Lemma fetch_all_sound (urls : list str) (nt : Net) :
  cache_sound env nt ->
  cache_sound env (snd (fetch_all env urls nt))
  /\ Forall2 (fun url r =>
                forall content,
                  r = Ok content ->
                  served_by env (requests (snd (fetch_all env urls nt)))
                    url content)
       urls (fst (fetch_all env urls nt)).
Proof.
  revert nt. induction urls as [|u urls IH]; intros nt Hs; simpl.
  - split; [exact Hs|constructor].
  - destruct (fetch_sound u nt Hs) as [Hs1 Hret].
    destruct (fetch_image_bytes env u nt) as [r nt1]. simpl in Hs1, Hret.
    destruct (IH nt1 Hs1) as [Hs2 Hall].
    destruct (fetch_all_requests_grow urls nt1) as (sent & Hsent & _).
    destruct (fetch_all env urls nt1) as [rs nt2]. simpl in *.
    split; [exact Hs2|]. constructor; [|exact Hall].
    intros c Hc. rewrite Hsent. apply served_by_mono. exact (Hret c Hc).
Qed.

End FetcherFacts.

Section FetcherProperties.

Lemma empty_net_sound (env : Env) : cache_sound env empty_net.
Proof. intros url content stored H. simpl in H. discriminate H. Qed.

Lemma url_loop_length (env : Env) (final_prompt : str) (w h : Z)
    (seed_mode : SeedMode) (seed_value : option Z) (range : list nat)
    (acc urls : list (str * option Z)) :
  url_loop env final_prompt w h seed_mode seed_value range acc = Ok urls ->
  length urls = (length acc + length range)%nat.
Proof.
  revert acc. induction range as [|i range IH]; intros acc; simpl.
  - intros [= <-]. lia.
  - destruct (pollinations_url final_prompt w h
                (variation_seed env seed_mode seed_value i)) as [u|e];
      [|discriminate].
    intros H%IH. rewrite H, length_app. simpl. lia.
Qed.

(** X6.  Whatever is fetched, in whatever order, the cache only holds,
    and a call only returns, content that the endpoint served for that
    very URL with a status that is not an error: starting from a cache
    with this property (the empty one has it), every call keeps it. *)
Theorem fetched_content_is_served (env : Env) (urls : list str) (nt : Net) :
  cache_sound env nt ->
  cache_sound env (snd (fetch_all env urls nt))
  /\ Forall2 (fun url r =>
                forall content,
                  r = Ok content ->
                  served_by env (requests (snd (fetch_all env urls nt)))
                    url content)
       urls (fst (fetch_all env urls nt)).
Proof. apply fetch_all_sound. Qed.

Lemma fetched_content_is_served_witness :
  cache_sound second_fails empty_net
  /\ cache_sound second_fails
       (snd (fetch_all second_fails [lit "u"; lit "v"; lit "u"] empty_net))
  /\ Forall2 (fun url r =>
                forall content,
                  r = Ok content ->
                  served_by second_fails
                    (requests (snd (fetch_all second_fails
                                      [lit "u"; lit "v"; lit "u"] empty_net)))
                    url content)
       [lit "u"; lit "v"; lit "u"]
       (fst (fetch_all second_fails [lit "u"; lit "v"; lit "u"] empty_net)).
Proof.
  split; [apply empty_net_sound|].
  apply (fetched_content_is_served second_fails
           [lit "u"; lit "v"; lit "u"] empty_net).
  apply empty_net_sound.
Defined.

(** X7.  A batch sends at most one request per variation and never
    retries: the requests it adds are a subsequence of the URLs of its
    variations, in their order, and the requests sent before are
    left in the log. *)
Theorem batch_requests_bounded (env : Env) (style final_prompt : str)
    (w h : Z) (variations : Z) (seed_mode : SeedMode)
    (seed_value : option Z) (wd wd' : World) (images : list (str * bytes)) :
  generate_batch env style final_prompt w h variations seed_mode seed_value
    wd = Ok (images, wd') ->
  exists urls sent,
    url_loop env final_prompt w h seed_mode seed_value
      (seq 0 (Z.to_nat variations)) [] = Ok urls
    /\ requests (net wd') = requests (net wd) ++ sent
    /\ sublist sent (map fst urls)
    /\ (length sent <= Z.to_nat variations)%nat.
Proof.
  unfold generate_batch.
  destruct (url_loop env final_prompt w h seed_mode seed_value
              (seq 0 (Z.to_nat variations)) []) as [urls|e] eqn:Hloop;
    [|discriminate].
  intros Hb%Ok_inj.
  pose proof (download_loop_spec env style final_prompt w h urls 1 [] wd)
    as (Hnet & _).
  rewrite Hb in Hnet. simpl in Hnet.
  destruct (fetch_all_requests_grow env (map fst urls) (net wd))
    as (sent & Hsent & Hsub).
  exists urls, sent. split; [reflexivity|].
  split; [rewrite Hnet; exact Hsent|]. split; [exact Hsub|].
  apply sublist_length in Hsub. rewrite length_map in Hsub.
  apply url_loop_length in Hloop. rewrite length_seq in Hloop.
  simpl in Hloop. lia.
Qed.

Lemma batch_requests_bounded_witness :
  exists images wd' urls sent,
    generate_batch second_fails (lit "Realistic")
      (lit "Realistic style, a red fox in snow") 1024 1024 3 Fixed
      (Some 42%Z) empty_world = Ok (images, wd')
    /\ url_loop second_fails (lit "Realistic style, a red fox in snow")
         1024 1024 Fixed (Some 42%Z) (seq 0 (Z.to_nat 3)) [] = Ok urls
    /\ requests (net wd') = requests (net empty_world) ++ sent
    /\ sublist sent (map fst urls)
    /\ (length sent <= Z.to_nat 3)%nat.
Proof.
  assert (H : exists images wd',
             generate_batch second_fails (lit "Realistic")
               (lit "Realistic style, a red fox in snow") 1024 1024 3 Fixed
               (Some 42%Z) empty_world = Ok (images, wd')).
  { eexists. eexists. vm_compute. reflexivity. }
  destruct H as (images & wd' & H). exists images, wd'.
  destruct (batch_requests_bounded _ _ _ _ _ _ _ _ _ _ _ H)
    as (urls & sent & H1 & H2 & H3 & H4).
  exists urls, sent. auto.
Defined.

(** X8.  A failure is neither served from the cache nor written to it:
    a call that raises has sent a request and leaves the cache as it
    was, so that the next call for the same URL asks the endpoint
    again. *)
Theorem fetch_failure_not_cached (env : Env) (url : str) (nt : Net)
    (e : exn) :
  fst (fetch_image_bytes env url nt) = Raise e ->
  cache (snd (fetch_image_bytes env url nt)) = cache nt
  /\ requests (snd (fetch_image_bytes env url nt)) = requests nt ++ [url]
  /\ ((monotonic env (length (fetch_log nt))
       <= monotonic env (S (length (fetch_log nt))))%Z ->
      requests (snd (fetch_image_bytes env url
                       (snd (fetch_image_bytes env url nt))))
      = requests nt ++ [url; url]).
Proof.
  intros Hraise.
  destruct (fetch_cases env url nt)
    as [(c & t & _ & _ & H)|[(code & c & _ & _ & H)|(e' & Hold & H)]];
    rewrite H in Hraise; try discriminate Hraise.
  rewrite H. simpl. split; [reflexivity|]. split; [reflexivity|].
  intros Hmono.
  set (nt1 := {| cache := cache nt; requests := requests nt ++ [url];
                 fetch_log := fetch_log nt ++ [url] |}).
  assert (Hlen : length (fetch_log nt1) = S (length (fetch_log nt))).
  { simpl. rewrite length_app. simpl. lia. }
  destruct (fetch_cases env url nt1)
    as [(c & t & Hc & Hfresh & _)|[(code & c & _ & _ & H1)|(e1 & _ & H1)]].
  - exfalso. simpl in Hc. rewrite Hlen in Hfresh.
    destruct Hold as [Hn|(c0 & t0 & Hc0 & Ht0)]; [congruence|].
    rewrite Hc0 in Hc. injection Hc as <- <-. lia.
  - rewrite H1. simpl. rewrite <- app_assoc. reflexivity.
  - rewrite H1. simpl. rewrite <- app_assoc. reflexivity.
Qed.

Lemma fetch_failure_not_cached_witness :
  let env := {| utc_millis := fun _ => 0%Z;
                monotonic := fun k => Z.of_nat k;
                http_get := fun _ _ => Response 503 [];
                local_now := fun _ => [] |} in
  fst (fetch_image_bytes env (lit "u") empty_net) = Raise (HTTPError 503)
  /\ cache (snd (fetch_image_bytes env (lit "u") empty_net)) = cache empty_net
  /\ requests (snd (fetch_image_bytes env (lit "u")
                      (snd (fetch_image_bytes env (lit "u") empty_net))))
     = requests empty_net ++ [lit "u"; lit "u"].
Proof.
  intros env.
  assert (H : fst (fetch_image_bytes env (lit "u") empty_net)
              = Raise (HTTPError 503)) by (vm_compute; reflexivity).
  split; [exact H|].
  destruct (fetch_failure_not_cached env (lit "u") empty_net _ H)
    as (H1 & _ & H2).
  split; [exact H1|]. apply H2. simpl. lia.
Defined.

End FetcherProperties.

(** ** The fixed seed *)

Section FixedSeed.

Variable env : Env.
Variables (style final_prompt : str) (w h : Z) (seed_value : option Z).
Variable u : str.
Hypothesis url_of_seed : pollinations_url final_prompt w h seed_value = Ok u.

Lemma fixed_urls_acc (range : list nat) (acc : list (str * option Z)) :
  url_loop env final_prompt w h Fixed seed_value range acc
  = Ok (acc ++ repeat (u, seed_value) (length range)).
Proof.
  revert acc. induction range as [|i range IH]; intros acc; simpl.
  - rewrite app_nil_r. reflexivity.
  - unfold variation_seed. rewrite url_of_seed, IH, <- app_assoc.
    reflexivity.
Qed.

Lemma fixed_urls (n : nat) :
  url_loop env final_prompt w h Fixed seed_value (seq 0 n) []
  = Ok (repeat (u, seed_value) n).
Proof. rewrite fixed_urls_acc, length_seq. reflexivity. Qed.

(** While an entry is fresh, every call for its URL returns it. *)
Lemma fetch_all_repeat_hit (content : bytes) (stored : Z) (m : nat)
    (nt : Net) :
  cache nt !! u = Some (content, stored) ->
  (forall k, (length (fetch_log nt) <= k < length (fetch_log nt) + m)%nat ->
     (monotonic env k < stored + 3600)%Z) ->
  fetch_all env (repeat u m) nt
  = (repeat (Ok content) m,
     {| cache := cache nt;
        requests := requests nt;
        fetch_log := fetch_log nt ++ repeat u m |}).
Proof.
  revert nt. induction m as [|m IH]; intros nt Hc Hfresh; simpl.
  - rewrite app_nil_r. destruct nt. reflexivity.
  - rewrite (fetch_hit env u nt content stored Hc) by (apply Hfresh; lia).
    rewrite IH; simpl.
    + rewrite <- app_assoc. reflexivity.
    + exact Hc.
    + intros k Hk. apply Hfresh. rewrite length_app in Hk. simpl in Hk. lia.
Qed.

Lemma images_of_repeat (content : bytes) (m idx : nat) :
  images_of style idx (repeat (u, seed_value) m) (repeat (Ok content) m)
  = map (fun i => (filename style i seed_value, content)) (seq idx m).
Proof.
  revert idx. induction m as [|m IH]; intros idx; [reflexivity|].
  simpl. rewrite IH. reflexivity.
Qed.

Lemma failures_of_repeat (content : bytes) (m idx : nat) :
  failures_of idx (repeat (Ok content) m) = [].
Proof.
  revert idx. induction m as [|m IH]; intros idx; [reflexivity|].
  simpl. apply IH.
Qed.

End FixedSeed.

Section FixedSeedProperties.

(** X9.  In the fixed mode every variation of a batch asks for the same
    URL, the one of the fixed seed. *)
Theorem fixed_mode_same_url (env : Env) (final_prompt : str) (w h : Z)
    (seed_value : option Z) (u : str) (n : nat) :
  pollinations_url final_prompt w h seed_value = Ok u ->
  url_loop env final_prompt w h Fixed seed_value (seq 0 n) []
  = Ok (repeat (u, seed_value) n).
Proof. intros Hu. apply fixed_urls. exact Hu. Qed.

Lemma fixed_mode_same_url_witness :
  pollinations_url (lit "Realistic style, a red fox in snow") 1024 1024
    (Some 42%Z)
  = Ok (lit "https://image.pollinations.ai/prompt/Realistic%20style%2C%20a%20red%20fox%20in%20snow?width=1024&height=1024&seed=42")
  /\ url_loop clock_set_back (lit "Realistic style, a red fox in snow")
       1024 1024 Fixed (Some 42%Z) (seq 0 3) []
     = Ok (repeat
             (lit "https://image.pollinations.ai/prompt/Realistic%20style%2C%20a%20red%20fox%20in%20snow?width=1024&height=1024&seed=42",
              Some 42%Z) 3).
Proof.
  assert (H : pollinations_url (lit "Realistic style, a red fox in snow")
                1024 1024 (Some 42%Z)
              = Ok (lit "https://image.pollinations.ai/prompt/Realistic%20style%2C%20a%20red%20fox%20in%20snow?width=1024&height=1024&seed=42"))
    by (vm_compute; reflexivity).
  split; [exact H|].
  exact (fixed_mode_same_url clock_set_back _ _ _ _ _ 3 H).
Defined.

(** X10.  A batch in the fixed mode whose URL is not in the cache, whose
    request the endpoint answers without an error status and which takes
    less than the hour of the cache: one request is sent, and every
    variation keeps the same content, under its own file name; nothing
    is reported as failed and the history grows by one entry per
    variation. *)
Theorem fixed_batch_one_request (env : Env) (style final_prompt : str)
    (w h : Z) (seed_value : option Z) (u : str) (n : nat)
    (status_code : Z) (content : bytes) (wd : World) :
  pollinations_url final_prompt w h seed_value = Ok u ->
  cache (net wd) !! u = None ->
  http_get env (length (requests (net wd))) u = Response status_code content ->
  raise_for_status status_code = false ->
  (forall k,
      (length (fetch_log (net wd)) < k
       < length (fetch_log (net wd)) + S n)%nat ->
      (monotonic env k
       < monotonic env (length (fetch_log (net wd))) + 3600)%Z) ->
  exists wd',
    generate_batch env style final_prompt w h (Z.of_nat (S n)) Fixed
      seed_value wd
    = Ok (map (fun i => (filename style i seed_value, content)) (seq 1 (S n)),
          wd')
    /\ requests (net wd') = requests (net wd) ++ [u]
    /\ page wd' = page wd
    /\ length (history (session wd'))
       = (S n + length (history (session wd)))%nat.
Proof.
  intros Hu Hnone Hget Hst Hfresh.
  unfold generate_batch. rewrite Nat2Z.id.
  rewrite (fixed_urls env final_prompt w h seed_value u Hu (S n)).
  pose proof (download_loop_spec env style final_prompt w h
                (repeat (u, seed_value) (S n)) 1 [] wd)
    as (Hnet & Himg & Hpage & _ & Hhist).
  destruct (download_loop env style final_prompt w h 1
              (repeat (u, seed_value) (S n)) [] wd) as [images wd'].
  cbn [fst snd] in *.
  rewrite map_repeat in Hnet, Himg, Hpage, Hhist. cbn [fst snd] in *.
  assert (Hall : fetch_all env (repeat u (S n)) (net wd)
                 = (repeat (Ok content) (S n),
                    {| cache := <[u := (content,
                                        monotonic env
                                          (length (fetch_log (net wd))))]>
                                  (cache (net wd));
                       requests := requests (net wd) ++ [u];
                       fetch_log := (fetch_log (net wd) ++ [u])
                                    ++ repeat u n |})).
  { change (repeat u (S n)) with (u :: repeat u n).
    change (fetch_all env (u :: repeat u n) (net wd))
      with (let (r, nt1) := fetch_image_bytes env u (net wd) in
            let (rs, nt2) := fetch_all env (repeat u n) nt1 in
            (r :: rs, nt2)).
    rewrite (fetch_miss env u (net wd) (or_introl Hnone)).
    unfold fetch_body. simpl requests. rewrite Hget, Hst.
    rewrite (fetch_all_repeat_hit env u content
               (monotonic env (length (fetch_log (net wd)))) n).
    - reflexivity.
    - simpl. apply lookup_insert_eq.
    - simpl. intros k Hk. rewrite length_app in Hk. simpl in Hk.
      apply Hfresh. lia. }
  rewrite Hall in Hnet, Himg, Hpage, Hhist. cbn [fst snd] in *.
  rewrite (images_of_repeat style seed_value u content (S n) 1)
    in Himg, Hhist.
  rewrite (failures_of_repeat content (S n) 1), app_nil_r in Hpage.
  exists wd'. rewrite Himg. split; [reflexivity|].
  split; [rewrite Hnet; reflexivity|]. split; [exact Hpage|].
  rewrite Hhist, length_map, length_seq. reflexivity.
Qed.

Lemma fixed_batch_one_request_witness :
  let env := always_ok [137; 80; 78; 71] (fun _ => 0%Z)
               (fun k => (10 * Z.of_nat k)%Z) in
  let u := lit "https://image.pollinations.ai/prompt/a%20cat?width=512&height=512&seed=42" in
  exists wd',
    generate_batch env (lit "Anime") (lit "a cat") 512 512 (Z.of_nat 3) Fixed
      (Some 42%Z) empty_world
    = Ok (map (fun i => (filename (lit "Anime") i (Some 42%Z),
                         [137; 80; 78; 71]))
            (seq 1 3), wd')
    /\ requests (net wd') = requests (net empty_world) ++ [u]
    /\ page wd' = page empty_world
    /\ length (history (session wd'))
       = (3 + length (history (session empty_world)))%nat.
Proof.
  intros env u.
  apply (fixed_batch_one_request env (lit "Anime") (lit "a cat") 512 512
           (Some 42%Z) u 2 200 [137; 80; 78; 71] empty_world).
  - vm_compute. reflexivity.
  - reflexivity.
  - reflexivity.
  - reflexivity.
  - intros k Hk. simpl in *. lia.
Defined.

End FixedSeedProperties.

(** ** What a batch leaves in the session and in the cache *)

Section BatchHistory.

Variable env : Env.
Variables (style final_prompt : str) (w h : Z).

Lemma fetch_keeps_entries (url x : str) (nt : Net) :
  is_Some (cache nt !! x) ->
  is_Some (cache (snd (fetch_image_bytes env url nt)) !! x).
Proof.
  intros Hx.
  destruct (fetch_cases env url nt)
    as [(c & t & _ & _ & ->)|[(code & c & _ & _ & ->)|(e & _ & ->)]];
    simpl; try exact Hx.
  destruct (decide (url = x)) as [->|Hne].
  - rewrite lookup_insert_eq. eauto.
  - rewrite lookup_insert_ne by exact Hne. exact Hx.
Qed.

Lemma fetch_ok_cached (url : str) (nt : Net) (content : bytes) :
  fst (fetch_image_bytes env url nt) = Ok content ->
  is_Some (cache (snd (fetch_image_bytes env url nt)) !! url).
Proof.
  destruct (fetch_cases env url nt)
    as [(c & t & Hc & _ & ->)|[(code & c & _ & _ & ->)|(e & _ & ->)]];
    simpl; intros H.
  - rewrite Hc. eauto.
  - rewrite lookup_insert_eq. eauto.
  - discriminate H.
Qed.

(** The entries the second loop pushes: one per file kept, in front of
    the old history, each with the prompt, the style and the size of
    the batch, the URL and the seed of one of its variations, and a
    URL that the cache holds when the loop ends. *)
Lemma download_loop_history (urls : list (str * option Z)) (idx : nat)
    (images_downloaded : list (str * bytes)) (wd : World) :
  let res := download_loop env style final_prompt w h idx urls
               images_downloaded wd in
  (exists new,
      history (session (snd res)) = new ++ history (session wd)
      /\ (length (fst res) = length images_downloaded + length new)%nat
      /\ Forall (fun it =>
                   Item.prompt it = final_prompt
                   /\ Item.style it = style
                   /\ Item.w it = w
                   /\ Item.h it = h
                   /\ In (Item.url it, Item.seed it) urls
                   /\ is_Some (cache (net (snd res)) !! Item.url it))
           new)
  /\ (forall x, is_Some (cache (net wd) !! x) ->
                is_Some (cache (net (snd res)) !! x)).
Proof.
  revert idx images_downloaded wd.
  induction urls as [|[url s] urls IH]; intros idx images wd; simpl.
  - split; [|auto]. exists []. split; [reflexivity|].
    split; [simpl; lia|constructor].
  - pose proof (fetch_keeps_entries url) as Hkeep.
    pose proof (fetch_ok_cached url (net wd)) as Hcached.
    destruct (fetch_image_bytes env url (net wd)) as [[img|e] nt] eqn:Hf;
      simpl in Hcached.
    + match goal with
      | |- context [download_loop _ _ _ _ _ _ _ ?i ?x] =>
          destruct (IH (S idx) i x) as ((new & Hh & Hl & Hall) & Hpres)
      end.
      simpl in Hh, Hl, Hall, Hpres.
      split.
      * eexists (new ++ [_]). split; [rewrite Hh, <- app_assoc; reflexivity|].
        split; [rewrite Hl, !length_app; simpl; lia|].
        apply Forall_app. split.
        -- eapply List.Forall_impl; [|exact Hall]. simpl.
           intros it (H1 & H2 & H3 & H4 & H5 & H6). auto 10.
        -- constructor; [|constructor]. simpl.
           repeat split; auto. apply Hpres. exact (Hcached img eq_refl).
      * intros x Hx. apply Hpres. specialize (Hkeep x (net wd) Hx).
        rewrite Hf in Hkeep. exact Hkeep.
    + match goal with
      | |- context [download_loop _ _ _ _ _ _ _ ?i ?x] =>
          destruct (IH (S idx) i x) as ((new & Hh & Hl & Hall) & Hpres)
      end.
      simpl in Hh, Hl, Hall, Hpres.
      split.
      * exists new. split; [exact Hh|]. split; [exact Hl|].
        eapply List.Forall_impl; [|exact Hall]. simpl.
        intros it (H1 & H2 & H3 & H4 & H5 & H6). auto 10.
      * intros x Hx. apply Hpres. specialize (Hkeep x (net wd) Hx).
        rewrite Hf in Hkeep. exact Hkeep.
Qed.

End BatchHistory.

Section BatchHistoryProperties.

(** X11.  A batch leaves the favorites and the old history as they
    were: it only puts new entries in front of the history, one per file
    it keeps, each carrying the prompt, the style and the size of the
    batch and the URL and seed of one of its variations. *)
Theorem generate_batch_history (env : Env) (style final_prompt : str)
    (w h : Z) (variations : Z) (seed_mode : SeedMode)
    (seed_value : option Z) (wd wd' : World) (images : list (str * bytes)) :
  generate_batch env style final_prompt w h variations seed_mode seed_value
    wd = Ok (images, wd') ->
  favorites (session wd') = favorites (session wd)
  /\ exists urls new,
      url_loop env final_prompt w h seed_mode seed_value
        (seq 0 (Z.to_nat variations)) [] = Ok urls
      /\ history (session wd') = new ++ history (session wd)
      /\ length new = length images
      /\ Forall (fun it =>
                   Item.prompt it = final_prompt
                   /\ Item.style it = style
                   /\ Item.w it = w
                   /\ Item.h it = h
                   /\ In (Item.url it, Item.seed it) urls)
           new.
Proof.
  unfold generate_batch.
  destruct (url_loop env final_prompt w h seed_mode seed_value
              (seq 0 (Z.to_nat variations)) []) as [urls|e] eqn:Hloop;
    [|discriminate].
  intros Hb%Ok_inj.
  pose proof (download_loop_spec env style final_prompt w h urls 1 [] wd)
    as (_ & _ & _ & Hfav & _).
  pose proof (download_loop_history env style final_prompt w h urls 1 [] wd)
    as ((new & Hh & Hl & Hall) & _).
  rewrite Hb in Hfav, Hh, Hl, Hall. cbn [fst snd] in *.
  split; [exact Hfav|]. exists urls, new.
  split; [reflexivity|]. split; [exact Hh|]. split; [simpl in Hl; lia|].
  eapply List.Forall_impl; [|exact Hall]. simpl.
  intros it (H1 & H2 & H3 & H4 & H5 & _). auto.
Qed.

Lemma generate_batch_history_witness :
  exists images wd' urls new,
    generate_batch second_fails (lit "Anime") (lit "Anime style, cat")
      1024 1024 3 Random None empty_world = Ok (images, wd')
    /\ favorites (session wd') = favorites (session empty_world)
    /\ url_loop second_fails (lit "Anime style, cat") 1024 1024 Random None
         (seq 0 (Z.to_nat 3)) [] = Ok urls
    /\ history (session wd') = new ++ history (session empty_world)
    /\ length new = length images
    /\ Forall (fun it =>
                 Item.prompt it = lit "Anime style, cat"
                 /\ Item.style it = lit "Anime"
                 /\ Item.w it = 1024%Z
                 /\ Item.h it = 1024%Z
                 /\ In (Item.url it, Item.seed it) urls)
         new.
Proof.
  assert (H : exists images wd',
             generate_batch second_fails (lit "Anime")
               (lit "Anime style, cat") 1024 1024 3 Random None empty_world
             = Ok (images, wd')).
  { eexists. eexists. vm_compute. reflexivity. }
  destruct H as (images & wd' & H).
  destruct (generate_batch_history _ _ _ _ _ _ _ _ _ _ _ H)
    as (Hfav & urls & new & H1 & H2 & H3 & H4).
  exists images, wd', urls, new. auto 10.
Defined.

(** X12.  When a batch ends, the cache holds the URL of every entry the
    batch pushed to the history: fetching it again while that entry of
    the cache is less than an hour old, as the history section does,
    returns the cached content and sends no request. *)
Theorem recorded_urls_cached (env : Env) (style final_prompt : str)
    (w h : Z) (variations : Z) (seed_mode : SeedMode)
    (seed_value : option Z) (wd wd' : World) (images : list (str * bytes)) :
  generate_batch env style final_prompt w h variations seed_mode seed_value
    wd = Ok (images, wd') ->
  exists new,
    history (session wd') = new ++ history (session wd)
    /\ Forall (fun it =>
                 exists content stored,
                   cache (net wd') !! Item.url it = Some (content, stored)
                   /\ ((monotonic env (length (fetch_log (net wd')))
                        < stored + 3600)%Z ->
                       fst (fetch_image_bytes env (Item.url it) (net wd'))
                       = Ok content
                       /\ requests (snd (fetch_image_bytes env (Item.url it)
                                           (net wd')))
                          = requests (net wd')))
         new.
Proof.
  unfold generate_batch.
  destruct (url_loop env final_prompt w h seed_mode seed_value
              (seq 0 (Z.to_nat variations)) []) as [urls|e] eqn:Hloop;
    [|discriminate].
  intros Hb%Ok_inj.
  pose proof (download_loop_history env style final_prompt w h urls 1 [] wd)
    as ((new & Hh & _ & Hall) & _).
  rewrite Hb in Hh, Hall. cbn [fst snd] in *.
  exists new. split; [exact Hh|].
  eapply List.Forall_impl; [|exact Hall]. simpl.
  intros it (_ & _ & _ & _ & _ & [[content stored] Hc]).
  exists content, stored. split; [exact Hc|]. intros Hfresh.
  rewrite (fetch_hit env (Item.url it) (net wd') content stored Hc Hfresh).
  simpl. auto.
Qed.

Lemma recorded_urls_cached_witness :
  exists images wd' new,
    generate_batch second_fails (lit "Anime") (lit "Anime style, cat")
      1024 1024 3 Random None empty_world = Ok (images, wd')
    /\ history (session wd') = new ++ history (session empty_world)
    /\ Forall (fun it =>
                 exists content stored,
                   cache (net wd') !! Item.url it = Some (content, stored)
                   /\ ((monotonic second_fails
                          (length (fetch_log (net wd'))) < stored + 3600)%Z ->
                       fst (fetch_image_bytes second_fails (Item.url it)
                              (net wd'))
                       = Ok content
                       /\ requests (snd (fetch_image_bytes second_fails
                                           (Item.url it) (net wd')))
                          = requests (net wd')))
         new.
Proof.
  assert (H : exists images wd',
             generate_batch second_fails (lit "Anime")
               (lit "Anime style, cat") 1024 1024 3 Random None empty_world
             = Ok (images, wd')).
  { eexists. eexists. vm_compute. reflexivity. }
  destruct H as (images & wd' & H).
  destruct (recorded_urls_cached _ _ _ _ _ _ _ _ _ _ _ H)
    as (new & H1 & H2).
  exists images, wd', new. auto.
Defined.

End BatchHistoryProperties.

(** ** File names *)

Section FileNames.

Lemma str_of_int_no_underscore (n : Z) : ~ In 95 (str_of_int n).
Proof.
  intros Hin. pose proof (str_of_int_chars n) as Hall.
  rewrite List.Forall_forall in Hall. specialize (Hall 95 Hin). lia.
Qed.

Lemma str_of_opt_int_inj (s s' : option Z) :
  str_of_opt_int s = str_of_opt_int s' -> s = s'.
Proof.
  assert (Hnone : forall z, str_of_int z <> lit "None").
  { intros z H. pose proof (str_of_int_chars z) as Hall.
    rewrite H in Hall. inversion Hall as [|? ? Hc _]. lia. }
  destruct s as [z|]; destruct s' as [z'|]; simpl; intros H.
  - f_equal. exact (str_of_int_inj _ _ H).
  - exfalso. exact (Hnone z H).
  - exfalso. exact (Hnone z' (eq_sym H)).
  - reflexivity.
Qed.

(** The name of a file tells its index and its seed. *)
Lemma filename_inj (style : str) (i j : nat) (s s' : option Z) :
  filename style i s = filename style j s' -> i = j /\ s = s'.
Proof.
  unfold filename. intros H.
  do 3 apply app_inv_head in H.
  change (lit "_seed") with (95 :: lit "seed") in H.
  rewrite <- !app_comm_cons in H.
  apply before_first_sep in H as [Hi Hs];
    [|apply str_of_int_no_underscore..].
  apply str_of_int_inj, Nat2Z.inj in Hi.
  apply app_inv_head, app_inv_tail, str_of_opt_int_inj in Hs. auto.
Qed.

Lemma images_of_names (style : str) (idx : nat)
    (urls : list (str * option Z)) (rs : list (result bytes)) (f : str) :
  In f (map fst (images_of style idx urls rs)) ->
  exists j s, (idx <= j)%nat /\ f = filename style j s.
Proof.
  revert idx rs. induction urls as [|[u s] urls IH]; intros idx rs; simpl.
  - destruct rs; contradiction.
  - destruct rs as [|[b|e] rs]; simpl; [contradiction| |].
    + intros [<-|Hin]; [exists idx, s; auto|].
      destruct (IH (S idx) rs Hin) as (j & s' & Hj & ->).
      exists j, s'. split; [lia|reflexivity].
    + intros Hin. destruct (IH (S idx) rs Hin) as (j & s' & Hj & ->).
      exists j, s'. split; [lia|reflexivity].
Qed.

Lemma images_of_nodup (style : str) (idx : nat)
    (urls : list (str * option Z)) (rs : list (result bytes)) :
  List.NoDup (map fst (images_of style idx urls rs)).
Proof.
  revert idx rs. induction urls as [|[u s] urls IH]; intros idx rs; simpl.
  - destruct rs; apply List.NoDup_nil.
  - destruct rs as [|[b|e] rs]; simpl; [apply List.NoDup_nil| |apply IH].
    apply List.NoDup_cons; [|apply IH].
    intros Hin. apply images_of_names in Hin as (j & s' & Hj & Heq).
    apply filename_inj in Heq as [-> _]. lia.
Qed.

(** X13.  The files a batch keeps have pairwise distinct names, even
    when two variations have the same seed: the index of the variation
    is part of the name. *)
Theorem batch_filenames_distinct (env : Env) (style final_prompt : str)
    (w h : Z) (variations : Z) (seed_mode : SeedMode)
    (seed_value : option Z) (wd wd' : World) (images : list (str * bytes)) :
  generate_batch env style final_prompt w h variations seed_mode seed_value
    wd = Ok (images, wd') ->
  List.NoDup (map fst images).
Proof.
  unfold generate_batch.
  destruct (url_loop env final_prompt w h seed_mode seed_value
              (seq 0 (Z.to_nat variations)) []) as [urls|e];
    [|discriminate].
  intros Hb%Ok_inj.
  pose proof (download_loop_spec env style final_prompt w h urls 1 [] wd)
    as (_ & Himg & _).
  rewrite Hb in Himg. cbn [fst snd] in Himg. simpl app in Himg.
  rewrite Himg. apply images_of_nodup.
Qed.

Lemma batch_filenames_distinct_witness :
  exists images wd',
    generate_batch clock_set_back (lit "Anime") (lit "Anime style, cat")
      1024 1024 2 Random None empty_world = Ok (images, wd')
    /\ List.NoDup (map fst images).
Proof.
  assert (H : exists images wd',
             generate_batch clock_set_back (lit "Anime")
               (lit "Anime style, cat") 1024 1024 2 Random None empty_world
             = Ok (images, wd')).
  { eexists. eexists. vm_compute. reflexivity. }
  destruct H as (images & wd' & H). exists images, wd'.
  split; [exact H|].
  exact (batch_filenames_distinct _ _ _ _ _ _ _ _ _ _ _ H).
Defined.

End FileNames.

(** ** Sizes *)

Section Sizes.

(** X14.  For every option of the preset box the size is resolved
    without a [KeyError], and the width and the height sent to the
    endpoint lie between 256 and 2048, whether they come from the preset
    or from the custom inputs; a key outside the options is a
    [KeyError] in both cases. *)
Theorem resolve_size_in_range (ratio : str) (use_custom : bool)
    (entered_w entered_h : Z) :
  (In ratio ratio_options ->
   (use_custom = true ->
    size_input_range entered_w = true /\ size_input_range entered_h = true) ->
   exists w h,
     resolve_size ratio use_custom entered_w entered_h = Some (w, h)
     /\ size_input_range w = true /\ size_input_range h = true
     /\ (use_custom = true -> w = entered_w /\ h = entered_h))
  /\ (~ In ratio ratio_options ->
      resolve_size ratio use_custom entered_w entered_h = None).
Proof.
  split.
  - intros Hin Hentered. unfold resolve_size.
    assert (Hpreset : exists pw ph,
               getitem ratio RATIO_PRESETS = Some (pw, ph)
               /\ size_input_range pw = true /\ size_input_range ph = true).
    { simpl in Hin.
      destruct Hin as [<-|[<-|[<-|[<-|[]]]]];
        eexists; eexists; (split; [vm_compute; reflexivity|]);
        split; reflexivity. }
    destruct Hpreset as (pw & ph & -> & Hpw & Hph).
    destruct use_custom.
    + destruct (Hentered eq_refl) as [Hw Hh].
      exists entered_w, entered_h. auto.
    + exists pw, ph. repeat split; try assumption; discriminate.
  - intros Hnot. unfold resolve_size.
    replace (getitem ratio RATIO_PRESETS) with (@None (Z * Z));
      [reflexivity|].
    symmetry. unfold ratio_options in Hnot.
    induction RATIO_PRESETS as [|[k v] d IH]; [reflexivity|].
    simpl in *. destruct (decide (k = ratio)) as [->|Hne].
    + exfalso. apply Hnot. left. reflexivity.
    + apply IH. intros H. apply Hnot. right. exact H.
Qed.

Lemma resolve_size_in_range_witness :
  In (lit "9:16 (Reels/Shorts)") ratio_options
  /\ (exists w h,
        resolve_size (lit "9:16 (Reels/Shorts)") true 640 2048 = Some (w, h)
        /\ size_input_range w = true /\ size_input_range h = true
        /\ (true = true -> w = 640%Z /\ h = 2048%Z))
  /\ resolve_size (lit "9:16 (Reels/Shorts)") false 0 0 = Some (768, 1365)%Z
  /\ resolve_size (lit "3:2") true 640 640 = None.
Proof.
  assert (Hin : In (lit "9:16 (Reels/Shorts)") ratio_options).
  { right. left. reflexivity. }
  split; [exact Hin|]. split.
  - destruct (resolve_size_in_range (lit "9:16 (Reels/Shorts)") true 640 2048)
      as [H _].
    apply H; [exact Hin|]. intros _. split; reflexivity.
  - split; vm_compute; reflexivity.
Defined.

End Sizes.

(** ** Random seeds under a steady clock *)

Section SteadyClock.

Lemma urls_nodup (final_prompt : str) (w h : Z)
    (urls : list (str * option Z)) :
  Forall (fun us => pollinations_url final_prompt w h (snd us) = Ok (fst us))
    urls ->
  List.NoDup (map snd urls) -> List.NoDup (map fst urls).
Proof.
  induction 1 as [|[u s] urls Hu Hall IH]; simpl; intros Hnd.
  - apply List.NoDup_nil.
  - inversion Hnd as [|? ? Hnotin Hnd']; subst.
    apply List.NoDup_cons; [|exact (IH Hnd')].
    intros Hin. apply Hnotin. apply in_map_iff in Hin as ([u' s'] & Heq & Hin).
    simpl in Heq. subst u'.
    rewrite List.Forall_forall in Hall. specialize (Hall _ Hin).
    simpl in Hu, Hall.
    destruct (url_determines_request _ _ _ _ _ _ _ _ _ Hall Hu)
      as (_ & _ & _ & ->).
    apply in_map_iff. exists (u, s). auto.
Qed.

(** X15.  As long as the clock does not go back and advances by at most
    [1000000 - n] ms while the URLs of a batch of [n] are built, the
    seeds of the random mode are pairwise distinct, and so are the URLs:
    no variation is served the cached picture of another. *)
Theorem random_batch_distinct (env : Env) (final_prompt : str) (w h : Z)
    (seed_value : option Z) (n : nat) (urls : list (str * option Z)) :
  (forall a b, (a < b < n)%nat ->
     (0 <= utc_millis env b - utc_millis env a <= 1000000 - Z.of_nat n)%Z) ->
  url_loop env final_prompt w h Random seed_value (seq 0 n) [] = Ok urls ->
  List.NoDup (map snd urls) /\ List.NoDup (map fst urls).
Proof.
  intros Hclock Hloop.
  destruct (valid_text final_prompt) eqn:Hv.
  - destruct (url_loop_spec env final_prompt w h Random seed_value Hv
                (seq 0 n) []) as (new & Hloop' & Hall).
    rewrite Hloop in Hloop'. apply Ok_inj in Hloop'. simpl in Hloop'.
    subst new.
    assert (Hseeds : map snd urls
                     = map (variation_seed env Random seed_value) (seq 0 n)).
    { clear Hloop. induction Hall as [|i us range new [Hs _] _ IH];
        [reflexivity|]. simpl. rewrite Hs, IH. reflexivity. }
    assert (Hnd : List.NoDup (map snd urls)).
    { rewrite Hseeds. apply NoDup_map_NoDup_ForallPairs; [|apply seq_NoDup].
      intros i j Hi Hj Heq. apply in_seq in Hi, Hj.
      unfold variation_seed in Heq. injection Heq as Heq.
      destruct (Nat.lt_trichotomy i j) as [Hlt|[Heq'|Hgt]]; [|exact Heq'|].
      - exfalso. apply (random_seeds_distinct_steady env n i j Hclock);
          [lia|exact Heq].
      - exfalso. apply (random_seeds_distinct_steady env n j i Hclock);
          [lia|symmetry; exact Heq]. }
    split; [exact Hnd|]. apply (urls_nodup final_prompt w h); [|exact Hnd].
    clear Hloop Hseeds Hnd.
    induction Hall as [|i us range new [_ Hu] _ IH]; constructor; assumption.
  - destruct n as [|n].
    + simpl in Hloop. apply Ok_inj in Hloop. subst urls.
      split; apply List.NoDup_nil.
    + change (seq 0 (S n)) with (0%nat :: seq 1 n) in Hloop.
      rewrite (url_loop_raises env w h Random seed_value _ _ _ _ Hv) in Hloop.
      discriminate Hloop.
Qed.

Lemma random_batch_distinct_witness :
  exists urls,
    url_loop clock_at_999999 (lit "Anime style, cat") 1024 1024 Random None
      (seq 0 3) [] = Ok urls
    /\ map snd urls = [Some 999999; Some 1000000; Some 1000001]%Z
    /\ List.NoDup (map snd urls) /\ List.NoDup (map fst urls).
Proof.
  assert (H : exists urls,
             url_loop clock_at_999999 (lit "Anime style, cat") 1024 1024
               Random None (seq 0 3) [] = Ok urls
             /\ map snd urls = [Some 999999; Some 1000000; Some 1000001]%Z).
  { eexists. split; vm_compute; reflexivity. }
  destruct H as (urls & H & Hs). exists urls.
  split; [exact H|]. split; [exact Hs|].
  apply (random_batch_distinct clock_at_999999 (lit "Anime style, cat")
           1024 1024 None 3 urls); [|exact H].
  intros a b Hab. simpl. lia.
Defined.

End SteadyClock.
